(** * keymatch: matching a KeyboardEvent against an Electron-style accelerator

    A shallow embedding of [src/keymatch.ts] ([parseMatchString],
    [normalizeKey], [normalizedEventKey], [keymatch]) and of the ECMAScript
    built-ins it calls, followed by the properties of the matcher. *)

From Stdlib Require Import String Ascii List NArith Bool Lia Permutation.
Import ListNotations.

Local Open Scope N_scope.

(** ** ECMAScript strings

    A JavaScript string is a finite sequence of UTF-16 code units. *)

Definition codeunit := N.
Definition jsstring := list codeunit.

(** A string literal of the source, one code unit per (Basic Latin)
    character. *)
Definition js (s : string) : jsstring :=
  map N_of_ascii (list_ascii_of_string s).

(** [a === b] on two strings: the same sequence of code units. *)
Fixpoint streq (a b : jsstring) : bool :=
  match a, b with
  | [], [] => true
  | x :: a', y :: b' => (x =? y) && streq a' b'
  | _, _ => false
  end.

(** ToBoolean on a string: only the empty string is falsy. *)
Definition truthy_string (s : jsstring) : bool :=
  match s with [] => false | _ :: _ => true end.

(** The code units [String.prototype.trim] strips: WhiteSpace (TAB, VT, FF,
    SP, NBSP, ZWNBSP and the Unicode space separators) and LineTerminator
    (LF, CR, LS, PS). *)
Definition isWhiteSpace (c : codeunit) : bool :=
  existsb (N.eqb c)
    [0x09; 0x0A; 0x0B; 0x0C; 0x0D; 0x20; 0xA0; 0x1680;
     0x2028; 0x2029; 0x202F; 0x205F; 0x3000; 0xFEFF]
  || ((0x2000 <=? c) && (c <=? 0x200A)).

Fixpoint trimStart (s : jsstring) : jsstring :=
  match s with
  | [] => []
  | c :: r => if isWhiteSpace c then trimStart r else s
  end.

Definition trimEnd (s : jsstring) : jsstring := rev (trimStart (rev s)).

(** [s.trim()] *)
Definition trim (s : jsstring) : jsstring := trimEnd (trimStart s).

(** [s.split(sep)] for a separator of one code unit: never an empty array,
    [''.split('+')] is [['']]. *)
Fixpoint split (sep : codeunit) (s : jsstring) : list jsstring :=
  match s with
  | [] => [[]]
  | c :: r =>
      if c =? sep then [] :: split sep r
      else match split sep r with
           | seg :: segs => (c :: seg) :: segs
           | [] => [[c]]
           end
  end.

(** [parts.join(sep)] *)
Fixpoint join (sep : codeunit) (parts : list jsstring) : jsstring :=
  match parts with
  | [] => []
  | [p] => p
  | p :: rest => p ++ sep :: join sep rest
  end.

(** [s.slice(n)] for [0 <= n]. *)
Definition slice_from (n : nat) (s : jsstring) : jsstring := skipn n s.

(** [parts.slice(0, -1)] *)
Definition slice_0_m1 {A} (parts : list A) : list A :=
  firstn (length parts - 1) parts.

(** [parts[i]]: [undefined] out of range. *)
Definition index {A} (parts : list A) (i : nat) : option A := nth_error parts i.

(** Basic Latin code units. *)
Definition isAscii (c : codeunit) : bool := c <? 128.

(** The lower-case mapping of one Basic Latin code unit: [A-Z] to [a-z]. *)
Definition lowerUnit (c : codeunit) : codeunit :=
  if (65 <=? c) && (c <=? 90) then c + 32 else c.

(** [String.prototype.toLowerCase] on the strings of Basic Latin code units;
    other code units are left as they are. *)
Definition toLowerCaseLatin (s : jsstring) : jsstring := map lowerUnit s.

(** ** Results of a call: a value, or a thrown exception *)

(** [InvalidAccelerator s] is [new Error(`Invalid accelerator: ${s}`)];
    [TypeError] is what a method call on [undefined] throws. *)
Inductive error : Type :=
| InvalidAccelerator (matchString : jsstring)
| TypeError.

Inductive result (A : Type) : Type :=
| Returns (a : A)
| Throws (e : error).
Arguments Returns {A} a.
Arguments Throws {A} e.

Definition bind {A B} (r : result A) (k : A -> result B) : result B :=
  match r with
  | Returns a => k a
  | Throws e => Throws e
  end.

Notation "x <- r ;; k" := (bind r (fun x => k))
  (at level 61, r at next level, right associativity).

(** ** Data *)

(** What the matcher reads of a [KeyboardEvent].  TypeScript declares [key]
    a string; at run time an object without it reads as [undefined], as
    [code] may ([(event as any).code as string | undefined]). *)
Record KeyboardEvent : Type := {
  key : option jsstring;
  code : option jsstring;
  ctrlKey : bool;
  altKey : bool;
  shiftKey : bool;
  metaKey : bool
}.

(** The object [parseMatchString] returns. *)
Module Parsed.
Record t : Type := {
  ctrl : bool;
  alt : bool;
  shift : bool;
  meta : bool;
  key : jsstring
}.
End Parsed.

(** A value [normalizeKey] can return: a string, or the member of
    [Object.prototype] (a function or an object) that the lookup
    [keyMap[normalized]] finds on the prototype chain of the literal. *)
Inductive value : Type :=
| Str (s : jsstring)
| Inherited (name : jsstring).

(** [v === s] for a string [s]: a function or object is never equal to it. *)
Definition strictEq (v : value) (s : jsstring) : bool :=
  match v with
  | Str a => streq a s
  | Inherited _ => false
  end.

Definition truthy (v : value) : bool :=
  match v with
  | Str s => truthy_string s
  | Inherited _ => true
  end.

(** The own properties of the literal [keyMap]. *)
Definition keyMap : list (jsstring * jsstring) :=
  [ (js " ", js "space");
    (js "arrowup", js "up");
    (js "arrowdown", js "down");
    (js "arrowleft", js "left");
    (js "arrowright", js "right") ].

(** The property names of [Object.prototype], the prototype of an object
    literal. *)
Definition ObjectPrototype : list jsstring :=
  [ js "constructor"; js "__defineGetter__"; js "__defineSetter__";
    js "hasOwnProperty"; js "__lookupGetter__"; js "__lookupSetter__";
    js "isPrototypeOf"; js "propertyIsEnumerable"; js "toString";
    js "valueOf"; js "__proto__"; js "toLocaleString" ].

Fixpoint own (table : list (jsstring * jsstring)) (name : jsstring)
  : option jsstring :=
  match table with
  | [] => None
  | (k, v) :: rest => if streq k name then Some v else own rest name
  end.

(** [keyMap[name]]: an own property, else an inherited one, else
    [undefined]. *)
Definition keyMap_get (name : jsstring) : option value :=
  match own keyMap name with
  | Some v => Some (Str v)
  | None =>
      if existsb (fun p => streq p name) ObjectPrototype
      then Some (Inherited name)
      else None
  end.

(** [/^Key[A-Z]$/.test(code)] *)
Definition test_Key (code : jsstring) : bool :=
  match code with
  | [k; e; y; c] =>
      (k =? 75) && (e =? 101) && (y =? 121) && (65 <=? c) && (c <=? 90)
  | _ => false
  end.

(** [/^Digit[0-9]$/.test(code)] *)
Definition test_Digit (code : jsstring) : bool :=
  match code with
  | [d; i; g; i'; t; c] =>
      (d =? 68) && (i =? 105) && (g =? 103) && (i' =? 105) && (t =? 116)
      && (48 <=? c) && (c <=? 57)
  | _ => false
  end.

(** [modifier === 'name'], a [case] label of the [switch]. *)
Definition case_ (modifier : jsstring) (name : string) : bool :=
  streq modifier (js name).

(** ** The program *)

Section Program.

(** [String.prototype.toLowerCase], the Unicode lower-case mapping. *)
Variable toLowerCase : jsstring -> jsstring.

(** The answer of the platform oracle [isMac()], imported from
    [./isMac.js], during the call. *)
Variable isMac : bool.

(** One round of the loop over [modifierParts]: the [switch]. *)
Definition applyModifier (st : Parsed.t) (modifier : jsstring) : Parsed.t :=
  let set_ctrl :=
    {| Parsed.ctrl := true; Parsed.alt := Parsed.alt st;
       Parsed.shift := Parsed.shift st; Parsed.meta := Parsed.meta st;
       Parsed.key := Parsed.key st |} in
  let set_alt :=
    {| Parsed.ctrl := Parsed.ctrl st; Parsed.alt := true;
       Parsed.shift := Parsed.shift st; Parsed.meta := Parsed.meta st;
       Parsed.key := Parsed.key st |} in
  let set_shift :=
    {| Parsed.ctrl := Parsed.ctrl st; Parsed.alt := Parsed.alt st;
       Parsed.shift := true; Parsed.meta := Parsed.meta st;
       Parsed.key := Parsed.key st |} in
  let set_meta :=
    {| Parsed.ctrl := Parsed.ctrl st; Parsed.alt := Parsed.alt st;
       Parsed.shift := Parsed.shift st; Parsed.meta := true;
       Parsed.key := Parsed.key st |} in
  if case_ modifier "cmd" || case_ modifier "command" then set_meta
  else if case_ modifier "ctrl" || case_ modifier "control" then set_ctrl
  else if case_ modifier "cmdorctrl" || case_ modifier "commandorcontrol" then
    (if isMac then set_meta else set_ctrl)
  else if case_ modifier "alt" then set_alt
  else if case_ modifier "option" then (if isMac then set_alt else st)
  else if case_ modifier "shift" then set_shift
  else if case_ modifier "meta" || case_ modifier "super" then set_meta
  else st.

Definition parseMatchString (matchString : jsstring) : result Parsed.t :=
  if negb (truthy_string (trim matchString)) then
    Returns {| Parsed.ctrl := false; Parsed.alt := false;
               Parsed.shift := false; Parsed.meta := false;
               Parsed.key := [] |}
  else
    let parts := split 43 matchString in
    match option_map toLowerCase (index parts (length parts - 1)) with
    | None => Throws (InvalidAccelerator matchString)
    | Some key =>
        if negb (truthy_string key) then
          Throws (InvalidAccelerator matchString)
        else
          let modifierParts := map toLowerCase (slice_0_m1 parts) in
          Returns
            (fold_left applyModifier modifierParts
               {| Parsed.ctrl := false; Parsed.alt := false;
                  Parsed.shift := false; Parsed.meta := false;
                  Parsed.key := key |})
    end.

(** [keyMap[normalized] || normalized] *)
Definition normalizeKey (key : jsstring) : value :=
  let normalized := toLowerCase key in
  match keyMap_get normalized with
  | Some v => if truthy v then v else Str normalized
  | None => Str normalized
  end.

Definition normalizedEventKey (event : KeyboardEvent) : result value :=
  let fallback :=
    match key event with
    | Some k => Returns (normalizeKey k)
    | None => Throws TypeError  (* undefined.toLowerCase() *)
    end in
  match code event with
  | Some code =>
      if truthy_string code then
        if test_Key code then Returns (Str (toLowerCase (slice_from 3 code)))
        else if test_Digit code then Returns (Str (slice_from 5 code))
        else fallback
      else fallback
  | None => fallback
  end.

Definition keymatch (event : KeyboardEvent) (matchString : jsstring)
  : result bool :=
  p <- parseMatchString matchString ;;
  k <- normalizedEventKey event ;;
  Returns (strictEq k (Parsed.key p)
           && Bool.eqb (ctrlKey event) (Parsed.ctrl p)
           && Bool.eqb (altKey event) (Parsed.alt p)
           && Bool.eqb (shiftKey event) (Parsed.shift p)
           && Bool.eqb (metaKey event) (Parsed.meta p)).

End Program.

(** ** Events of the test suite

    [createKeyboardEvent({ key, code, ctrlKey, altKey, shiftKey, metaKey })]:
    [key] is required, the flags default to [false]. *)

Definition createKeyboardEvent (key : string) (code : option jsstring)
  (ctrlKey altKey shiftKey metaKey : bool) : KeyboardEvent :=
  {| key := Some (js key); code := code; ctrlKey := ctrlKey;
     altKey := altKey; shiftKey := shiftKey; metaKey := metaKey |}.

(** An event that reports only a logical key, no modifier pressed. *)
Definition keyEvent (k : string) : KeyboardEvent :=
  createKeyboardEvent k None false false false false.

(** The event of the test suite for a composed character: key U+00F8 (o
    with stroke), code [KeyO], alt pressed. *)
Definition composed_o : KeyboardEvent :=
  {| key := Some [248]; code := Some (js "KeyO"); ctrlKey := false;
     altKey := true; shiftKey := false; metaKey := false |}.

(** An object with none of the properties read but the flags. *)
Definition no_key_no_code : KeyboardEvent :=
  {| key := None; code := None; ctrlKey := false; altKey := false;
     shiftKey := false; metaKey := false |}.

(** ** What the loop over the modifier tokens computes

    The tokens that make the [switch] set each flag. *)

Definition sets_ctrl (isMac : bool) (m : jsstring) : bool :=
  case_ m "ctrl" || case_ m "control"
  || (negb isMac && (case_ m "cmdorctrl" || case_ m "commandorcontrol")).

Definition sets_alt (isMac : bool) (m : jsstring) : bool :=
  case_ m "alt" || (isMac && case_ m "option").

Definition sets_shift (m : jsstring) : bool := case_ m "shift".

Definition sets_meta (isMac : bool) (m : jsstring) : bool :=
  case_ m "cmd" || case_ m "command" || case_ m "meta" || case_ m "super"
  || (isMac && (case_ m "cmdorctrl" || case_ m "commandorcontrol")).

(** Two token lists with the same tokens, whatever their order and
    multiplicity. *)
Definition sameTokens (a b : list jsstring) : Prop := incl a b /\ incl b a.

(** The events whose normalization lower-cases Basic Latin text only. *)
Definition latinEvent (e : KeyboardEvent) : bool :=
  match code e with
  | Some c => truthy_string c && (test_Key c || test_Digit c)
  | None => false
  end
  || match key e with
     | Some k => forallb isAscii k
     | None => true
     end.

(** ** The vocabulary of the [switch]

    The [case] labels, grouped by the flag their branch sets under the
    given answer of the platform oracle: meta, control, alt, shift. *)

Definition metaNames : list jsstring :=
  [js "cmd"; js "command"; js "meta"; js "super"].

Definition ctrlNames : list jsstring := [js "ctrl"; js "control"].

Definition cmdOrCtrlNames : list jsstring :=
  [js "cmdorctrl"; js "commandorcontrol"].

Definition modifierGroups (isMac : bool) : list (list jsstring) :=
  [ metaNames ++ (if isMac then cmdOrCtrlNames else []);
    ctrlNames ++ (if isMac then [] else cmdOrCtrlNames);
    js "alt" :: (if isMac then [js "option"] else []);
    [js "shift"] ].

(** Every [case] label. *)
Definition modifierNames : list jsstring :=
  metaNames ++ ctrlNames ++ cmdOrCtrlNames
  ++ [js "alt"; js "option"; js "shift"].

(** The labels whose branch asks [isMac()]. *)
Definition platformNames : list jsstring := cmdOrCtrlNames ++ [js "option"].

(** The event [e] reporting the logical key [k] instead of its own. *)
Definition withKey (k : jsstring) (e : KeyboardEvent) : KeyboardEvent :=
  {| key := Some k; code := code e; ctrlKey := ctrlKey e;
     altKey := altKey e; shiftKey := shiftKey e; metaKey := metaKey e |}.

(** A code that names a letter or digit position. *)
Definition positional (e : KeyboardEvent) : bool :=
  match code e with
  | Some c => test_Key c || test_Digit c
  | None => false
  end.

(** ** Strings, [trim] and [split] *)

Lemma streq_true_iff (a b : jsstring) : streq a b = true <-> a = b.
Proof.
  revert b; induction a as [|x a IH]; intros [|y b]; simpl;
    try (split; [discriminate | discriminate]); try tauto.
  rewrite andb_true_iff, N.eqb_eq, IH.
  split; [intros [-> ->]; reflexivity | intros H; inversion H; auto].
Qed.

Lemma streq_refl (a : jsstring) : streq a a = true.
Proof. apply streq_true_iff; reflexivity. Qed.

Lemma truthy_string_false_iff (s : jsstring) :
  truthy_string s = false <-> s = [].
Proof. destruct s; simpl; split; congruence. Qed.

Lemma forallb_trimStart (s : jsstring) :
  forallb isWhiteSpace (trimStart s) = forallb isWhiteSpace s.
Proof.
  induction s as [|c r IH]; simpl; auto.
  destruct (isWhiteSpace c) eqn:E; simpl; rewrite ?E; auto.
Qed.

Lemma trimStart_nil_iff (s : jsstring) :
  trimStart s = [] <-> forallb isWhiteSpace s = true.
Proof.
  induction s as [|c r IH]; simpl; [tauto|].
  destruct (isWhiteSpace c); simpl; [exact IH | split; discriminate].
Qed.

Lemma forallb_rev {A} (f : A -> bool) (l : list A) :
  forallb f (rev l) = forallb f l.
Proof.
  induction l as [|a l IH]; simpl; auto.
  rewrite forallb_app, IH; simpl. rewrite andb_true_r, andb_comm; reflexivity.
Qed.

(** [!s.trim()] holds exactly of the strings made of white space only. *)
Lemma trim_nil_iff (s : jsstring) :
  trim s = [] <-> forallb isWhiteSpace s = true.
Proof.
  unfold trim, trimEnd.
  rewrite <- (forallb_trimStart s), <- (forallb_rev _ (trimStart s)),
    <- trimStart_nil_iff.
  split; intros H; [| rewrite H; reflexivity].
  apply (f_equal (@rev _)) in H; rewrite rev_involutive in H; exact H.
Qed.

Lemma blank_iff (s : jsstring) :
  negb (truthy_string (trim s)) = true <-> forallb isWhiteSpace s = true.
Proof.
  rewrite negb_true_iff, truthy_string_false_iff. apply trim_nil_iff.
Qed.

Lemma split_snoc (sep : codeunit) (s : jsstring) :
  exists mods k, split sep s = mods ++ [k].
Proof.
  induction s as [|c r (mods & k & IH)]; simpl.
  - exists [], []; reflexivity.
  - destruct (c =? sep).
    + exists ([] :: mods), k; rewrite IH; reflexivity.
    + rewrite IH. destruct mods as [|m mods]; simpl.
      * exists [], (c :: k); reflexivity.
      * exists ((c :: m) :: mods), k; reflexivity.
Qed.

Lemma split_no_sep (sep : codeunit) (s : jsstring) :
  ~ In sep s -> split sep s = [s].
Proof.
  induction s as [|c r IH]; simpl; intros H; auto.
  destruct (N.eqb_spec c sep) as [->|_]; [tauto|].
  rewrite IH by tauto; reflexivity.
Qed.

Lemma split_app_sep (sep : codeunit) (a b : jsstring) :
  ~ In sep a -> split sep (a ++ sep :: b) = a :: split sep b.
Proof.
  induction a as [|c r IH]; simpl; intros H.
  - rewrite N.eqb_refl; reflexivity.
  - destruct (N.eqb_spec c sep) as [->|_]; [tauto|].
    rewrite IH by tauto; reflexivity.
Qed.

(** A string with two segments or more holds the separator. *)
Lemma split_two_sep (sep : codeunit) (s : jsstring) m mods k :
  split sep s = (m :: mods) ++ [k] -> In sep s.
Proof.
  intros H. destruct (in_dec N.eq_dec sep s) as [?|N]; auto.
  rewrite (split_no_sep _ _ N) in H.
  destruct mods; discriminate.
Qed.

Lemma join_split (sep : codeunit) (s : jsstring) : join sep (split sep s) = s.
Proof.
  induction s as [|c r IH]; simpl; auto.
  destruct (c =? sep) eqn:E.
  - apply N.eqb_eq in E; subst c.
    destruct (split sep r) eqn:S; simpl in *; [|rewrite IH; reflexivity].
    destruct (split_snoc sep r) as (m & k & Hs); rewrite S in Hs.
    destruct m; discriminate.
  - destruct (split sep r) as [|seg segs] eqn:S; simpl in *.
    + subst r; reflexivity.
    + destruct segs; simpl in *; rewrite <- IH; reflexivity.
Qed.

Lemma index_last {A} (mods : list A) (k : A) :
  index (mods ++ [k]) (length (mods ++ [k]) - 1) = Some k.
Proof.
  unfold index. rewrite length_app; simpl.
  replace (length mods + 1 - 1)%nat with (length mods + 0)%nat by lia.
  rewrite nth_error_app2 by lia.
  replace (length mods + 0 - length mods)%nat with 0%nat by lia. reflexivity.
Qed.

Lemma slice_0_m1_snoc {A} (mods : list A) (k : A) :
  slice_0_m1 (mods ++ [k]) = mods.
Proof.
  unfold slice_0_m1. rewrite length_app; simpl.
  replace (length mods + 1 - 1)%nat with (length mods + 0)%nat by lia.
  rewrite firstn_app_2; simpl. apply app_nil_r.
Qed.

Lemma sep_not_blank (s : jsstring) :
  In 43 s -> forallb isWhiteSpace s = false.
Proof.
  intros H. destruct (forallb isWhiteSpace s) eqn:E; auto.
  rewrite forallb_forall in E. apply E in H. discriminate.
Qed.

(** ** The parser and the matcher, for any lower-casing *)

Section Matcher.

Variable toLowerCase : jsstring -> jsstring.
Variable isMac : bool.


(** The accelerator with no requirement and the base key [k]. *)
Local Abbreviation plain k :=
  {| Parsed.ctrl := false; Parsed.alt := false; Parsed.shift := false;
     Parsed.meta := false; Parsed.key := k |}.

Lemma strictEq_true_iff (v : value) (s : jsstring) :
  strictEq v s = true <-> v = Str s.
Proof.
  destruct v as [a|n]; simpl.
  - rewrite streq_true_iff. split; congruence.
  - split; discriminate.
Qed.

(** [parseMatchString] in terms of the segments of the string. *)
Lemma parse_split (s : jsstring) (mods : list jsstring) (k : jsstring) :
  split 43 s = mods ++ [k] ->
  parseMatchString toLowerCase isMac s =
    if negb (truthy_string (trim s)) then Returns (plain [])
    else if negb (truthy_string (toLowerCase k))
         then Throws (InvalidAccelerator s)
         else Returns (fold_left (applyModifier isMac) (map toLowerCase mods)
                         (plain (toLowerCase k))).
Proof.
  intros H. unfold parseMatchString.
  rewrite H, index_last, slice_0_m1_snoc. reflexivity.
Qed.

Ltac case_label m name :=
  let E := fresh "E" in
  destruct (case_ m name) eqn:E;
  [ apply streq_true_iff in E; subst m;
    destruct isMac; simpl; rewrite ?orb_true_r, ?orb_false_r; reflexivity
  | simpl ].

(** One round of the loop only ever raises flags. *)
Lemma applyModifier_flags (st : Parsed.t) (m : jsstring) :
  applyModifier isMac st m =
    {| Parsed.ctrl := Parsed.ctrl st || sets_ctrl isMac m;
       Parsed.alt := Parsed.alt st || sets_alt isMac m;
       Parsed.shift := Parsed.shift st || sets_shift m;
       Parsed.meta := Parsed.meta st || sets_meta isMac m;
       Parsed.key := Parsed.key st |}.
Proof.
  destruct st as [c a s t k].
  unfold applyModifier, sets_ctrl, sets_alt, sets_shift, sets_meta.
  simpl.
  case_label m "cmd"%string. case_label m "command"%string.
  case_label m "ctrl"%string. case_label m "control"%string.
  case_label m "cmdorctrl"%string. case_label m "commandorcontrol"%string.
  case_label m "alt"%string. case_label m "option"%string.
  case_label m "shift"%string. case_label m "meta"%string.
  case_label m "super"%string.
  rewrite ?andb_false_r, ?orb_false_r. reflexivity.
Qed.

Lemma fold_applyModifier (ms : list jsstring) (st : Parsed.t) :
  fold_left (applyModifier isMac) ms st =
    {| Parsed.ctrl := Parsed.ctrl st || existsb (sets_ctrl isMac) ms;
       Parsed.alt := Parsed.alt st || existsb (sets_alt isMac) ms;
       Parsed.shift := Parsed.shift st || existsb sets_shift ms;
       Parsed.meta := Parsed.meta st || existsb (sets_meta isMac) ms;
       Parsed.key := Parsed.key st |}.
Proof.
  revert st; induction ms as [|m ms IH]; intros st; simpl.
  - destruct st; simpl; rewrite !orb_false_r; reflexivity.
  - rewrite IH, applyModifier_flags; simpl. rewrite !orb_assoc. reflexivity.
Qed.

Lemma existsb_incl {A} (f : A -> bool) (a b : list A) :
  incl a b -> existsb f a = true -> existsb f b = true.
Proof.
  intros I H. apply existsb_exists in H as (x & Hx & Hf).
  apply existsb_exists. exists x; auto.
Qed.

Lemma existsb_sameTokens (f : jsstring -> bool) (a b : list jsstring) :
  sameTokens a b -> existsb f a = existsb f b.
Proof.
  intros [I J].
  destruct (existsb f a) eqn:Ea.
  - symmetry; eapply existsb_incl; eauto.
  - destruct (existsb f b) eqn:Eb; auto.
    rewrite (existsb_incl f b a J Eb) in Ea. discriminate.
Qed.

Lemma fold_sameTokens (a b : list jsstring) (st : Parsed.t) :
  sameTokens a b ->
  fold_left (applyModifier isMac) a st = fold_left (applyModifier isMac) b st.
Proof.
  intros H. rewrite !fold_applyModifier.
  rewrite !(existsb_sameTokens _ a b H). reflexivity.
Qed.

Lemma sameTokens_map (f : jsstring -> jsstring) (a b : list jsstring) :
  sameTokens a b -> sameTokens (map f a) (map f b).
Proof. intros [I J]; split; apply incl_map; assumption. Qed.

Lemma sameTokens_nil (b : list jsstring) : sameTokens [] b -> b = [].
Proof. intros [_ J]. apply incl_l_nil; assumption. Qed.

Lemma Permutation_sameTokens (a b : list jsstring) :
  Permutation a b -> sameTokens a b.
Proof.
  intros P; split; intros x Hx.
  - eapply Permutation_in; eauto.
  - eapply Permutation_in; [apply Permutation_sym|]; eauto.
Qed.

Lemma duplicate_sameTokens (t : jsstring) (a b : list jsstring) :
  sameTokens (a ++ t :: b) (t :: a ++ t :: b).
Proof.
  split; intros x Hx.
  - right; assumption.
  - destruct Hx as [<-|Hx]; auto. apply in_elt.
Qed.

(** When the accelerator parses, a match is the conjunction of the five
    comparisons of [keymatch]. *)
Lemma keymatch_true_iff (e : KeyboardEvent) (s : jsstring) (p : Parsed.t) :
  parseMatchString toLowerCase isMac s = Returns p ->
  keymatch toLowerCase isMac e s = Returns true <->
    normalizedEventKey toLowerCase e = Returns (Str (Parsed.key p))
    /\ ctrlKey e = Parsed.ctrl p /\ altKey e = Parsed.alt p
    /\ shiftKey e = Parsed.shift p /\ metaKey e = Parsed.meta p.
Proof.
  intros Hp. unfold keymatch. rewrite Hp; simpl.
  destruct (normalizedEventKey toLowerCase e) as [v|err]; simpl.
  - split.
    + intros H. injection H as H.
      rewrite !andb_true_iff, !eqb_true_iff, strictEq_true_iff in H.
      destruct H as [[[[-> ?] ?] ?] ?]. auto.
    + intros (Hv & Hc & Ha & Hs & Hm). injection Hv as ->.
      rewrite Hc, Ha, Hs, Hm, !eqb_reflx. simpl.
      rewrite streq_refl. reflexivity.
  - split; [discriminate | intros [H _]; discriminate].
Qed.

End Matcher.

(** ** Properties of the matcher

    [String.prototype.toLowerCase] is the Unicode lower-case mapping; two
    facts about it are used: on Basic Latin text it maps [A-Z] to [a-z] and
    nothing else, and it never maps a string that is not empty to the empty
    one. *)

Section Properties.

Variable toLowerCase : jsstring -> jsstring.

Hypothesis toLowerCase_Latin :
  forall s, forallb isAscii s = true -> toLowerCase s = toLowerCaseLatin s.

Hypothesis toLowerCase_nonempty :
  forall s, toLowerCase s = [] -> s = [].


Local Abbreviation plain k :=
  {| Parsed.ctrl := false; Parsed.alt := false; Parsed.shift := false;
     Parsed.meta := false; Parsed.key := k |}.

Lemma toLowerCase_nil : toLowerCase [] = [].
Proof. apply toLowerCase_Latin; reflexivity. Qed.

Lemma toLowerCase_truthy (s : jsstring) :
  truthy_string (toLowerCase s) = truthy_string s.
Proof.
  destruct s as [|c r]; [rewrite toLowerCase_nil; reflexivity|].
  destruct (toLowerCase (c :: r)) eqn:E; simpl; auto.
  apply toLowerCase_nonempty in E; discriminate.
Qed.

Lemma split_ascii (sep : codeunit) (s : jsstring) :
  forallb isAscii s = true ->
  Forall (fun seg => forallb isAscii seg = true) (split sep s).
Proof.
  induction s as [|c r IH]; simpl; intros H.
  - repeat constructor.
  - apply andb_true_iff in H as [Hc Hr]. specialize (IH Hr).
    destruct (c =? sep); [constructor; auto|].
    destruct (split sep r) as [|seg segs]; inversion IH; subst;
      constructor; simpl; auto; rewrite Hc; auto.
Qed.

(** On Basic Latin text the program runs as with [toLowerCaseLatin]. *)
Lemma parse_Latin (isMac : bool) (s : jsstring) :
  forallb isAscii s = true ->
  parseMatchString toLowerCase isMac s
  = parseMatchString toLowerCaseLatin isMac s.
Proof.
  intros H. destruct (split_snoc 43 s) as (mods & k & Hs).
  rewrite (parse_split toLowerCase isMac s mods k Hs),
    (parse_split toLowerCaseLatin isMac s mods k Hs).
  pose proof (split_ascii 43 s H) as F. rewrite Hs in F.
  apply Forall_app in F as [Fm Fk]. inversion Fk; subst.
  rewrite toLowerCase_Latin by assumption.
  replace (map toLowerCase mods) with (map toLowerCaseLatin mods);
    [reflexivity|].
  apply map_ext_in. intros m Hm. symmetry; apply toLowerCase_Latin.
  rewrite Forall_forall in Fm; auto.
Qed.

Lemma normalizeKey_Latin (k : jsstring) :
  forallb isAscii k = true ->
  normalizeKey toLowerCase k = normalizeKey toLowerCaseLatin k.
Proof.
  intros H. unfold normalizeKey.
  rewrite toLowerCase_Latin by assumption. reflexivity.
Qed.

Lemma test_Key_inv (c : jsstring) :
  test_Key c = true ->
  exists x, c = js "Key" ++ [x] /\ 65 <= x <= 90.
Proof.
  destruct c as [|k [|e [|y [|x [|? ?]]]]]; simpl; try discriminate.
  rewrite !andb_true_iff, !N.eqb_eq, !N.leb_le.
  intros [[[[-> ->] ->] ?] ?]. exists x; split; [reflexivity | lia].
Qed.

Lemma test_Digit_inv (c : jsstring) :
  test_Digit c = true ->
  exists x, c = js "Digit" ++ [x] /\ 48 <= x <= 57.
Proof.
  destruct c as [|d [|i [|g [|i' [|t [|x [|? ?]]]]]]]; simpl;
    try discriminate.
  rewrite !andb_true_iff, !N.eqb_eq, !N.leb_le.
  intros [[[[[[-> ->] ->] ->] ->] ?] ?].
  exists x; split; [reflexivity | lia].
Qed.

Lemma upper_isAscii (x : codeunit) : 65 <= x <= 90 -> isAscii x = true.
Proof. intros H; unfold isAscii; apply N.ltb_lt; lia. Qed.

Lemma lowerUnit_upper (x : codeunit) : 65 <= x <= 90 -> lowerUnit x = x + 32.
Proof.
  intros [H1 H2]; unfold lowerUnit.
  apply N.leb_le in H1, H2. rewrite H1, H2. reflexivity.
Qed.

Lemma normalizedEventKey_Latin (e : KeyboardEvent) :
  latinEvent e = true ->
  normalizedEventKey toLowerCase e = normalizedEventKey toLowerCaseLatin e.
Proof.
  unfold latinEvent, normalizedEventKey.
  assert (K : match key e with Some k => forallb isAscii k | None => true end
              = true ->
              match key e with
              | Some k => Returns (normalizeKey toLowerCase k)
              | None => Throws TypeError
              end =
              match key e with
              | Some k => Returns (normalizeKey toLowerCaseLatin k)
              | None => Throws TypeError
              end).
  { destruct (key e); intros H; [rewrite normalizeKey_Latin|]; auto. }
  destruct (code e) as [c|]; simpl; [|exact K].
  destruct (truthy_string c); simpl; [|exact K].
  destruct (test_Key c) eqn:Ek; simpl.
  - intros _. apply test_Key_inv in Ek as (x & -> & Hx). simpl.
    rewrite toLowerCase_Latin; [reflexivity|].
    simpl. rewrite (upper_isAscii x Hx). reflexivity.
  - destruct (test_Digit c); simpl; [reflexivity | exact K].
Qed.

Lemma keymatch_Latin (isMac : bool) (e : KeyboardEvent) (s : jsstring) :
  latinEvent e = true -> forallb isAscii s = true ->
  keymatch toLowerCase isMac e s = keymatch toLowerCaseLatin isMac e s.
Proof.
  intros He Hs. unfold keymatch.
  rewrite parse_Latin, normalizedEventKey_Latin by assumption. reflexivity.
Qed.

(** Runs the program on a Basic Latin event and accelerator. *)
Ltac run :=
  first [ rewrite keymatch_Latin by reflexivity
        | rewrite parse_Latin by reflexivity
        | rewrite normalizedEventKey_Latin by reflexivity
        | rewrite normalizeKey_Latin by reflexivity ];
  reflexivity.

(** Expectations of the test suite, on macOS ([MacIntel]) and elsewhere
    ([Win32], [Linux x86_64]). *)
Lemma test_suite_macOS :
  keymatch toLowerCase true (keyEvent "r") (js "R") = Returns true
  /\ keymatch toLowerCase true (keyEvent "R") (js "r") = Returns true
  /\ keymatch toLowerCase true
       (createKeyboardEvent "r" None true false false false) (js "R")
     = Returns false
  /\ keymatch toLowerCase true (keyEvent "r") (js "S") = Returns false
  /\ keymatch toLowerCase true (keyEvent "k") (js "CmdOrCtrl+K")
     = Returns false
  /\ keymatch toLowerCase true
       (createKeyboardEvent "k" None false true false true)
       (js "CmdOrCtrl+K") = Returns false
  /\ keymatch toLowerCase true
       (createKeyboardEvent "J" None false false true true)
       (js "CmdOrCtrl+Shift+J") = Returns true
  /\ keymatch toLowerCase true
       (createKeyboardEvent "H" None true true true false)
       (js "Alt+Shift+H") = Returns false
  /\ keymatch toLowerCase true
       (createKeyboardEvent "ArrowUp" (Some (js "ArrowUp"))
          false false false false) (js "Up") = Returns true
  /\ keymatch toLowerCase true (keyEvent "a") (js "") = Returns false
  /\ keymatch toLowerCase true
       (createKeyboardEvent "Delete" None false false false true)
       (js "CmdOrCtrl+Delete") = Returns true
  /\ keymatch toLowerCase true
       (createKeyboardEvent "k" None false true false false)
       (js "Option+K") = Returns true.
Proof. repeat split; run. Qed.

Lemma test_suite_elsewhere :
  keymatch toLowerCase false
    (createKeyboardEvent "J" None true false true false)
    (js "CmdOrCtrl+Shift+J") = Returns true
  /\ keymatch toLowerCase false
       (createKeyboardEvent "Delete" None true false false false)
       (js "CmdOrCtrl+Delete") = Returns true
  /\ keymatch toLowerCase false
       (createKeyboardEvent "k" None false true false false)
       (js "Option+K") = Returns false.
Proof. repeat split; run. Qed.

Lemma normalizedEventKey_returns (e : KeyboardEvent) (k : jsstring) :
  key e = Some k -> exists v, normalizedEventKey toLowerCase e = Returns v.
Proof.
  intros H. unfold normalizedEventKey. rewrite H.
  destruct (code e) as [c|]; [|eauto].
  destruct (truthy_string c); [|eauto].
  destruct (test_Key c); [eauto|]. destruct (test_Digit c); eauto.
Qed.

(** C1: for an accelerator that parses without error, [keymatch] returns
    [true] exactly when the normalized event key is the parsed base key and
    each of the four modifier flags of the event equals the parsed
    requirement; so an event with a modifier pressed that the accelerator
    does not require never matches, whatever else is pressed: the result
    is not [true], and it is [false] when the event carries a key. *)
Theorem keymatch_exact_modifiers
  (isMac : bool) (e : KeyboardEvent) (s : jsstring) (p : Parsed.t) :
  parseMatchString toLowerCase isMac s = Returns p ->
  (keymatch toLowerCase isMac e s = Returns true <->
     normalizedEventKey toLowerCase e = Returns (Str (Parsed.key p))
     /\ ctrlKey e = Parsed.ctrl p /\ altKey e = Parsed.alt p
     /\ shiftKey e = Parsed.shift p /\ metaKey e = Parsed.meta p)
  /\ ((ctrlKey e = true /\ Parsed.ctrl p = false)
      \/ (altKey e = true /\ Parsed.alt p = false)
      \/ (shiftKey e = true /\ Parsed.shift p = false)
      \/ (metaKey e = true /\ Parsed.meta p = false) ->
      keymatch toLowerCase isMac e s <> Returns true
      /\ forall k, key e = Some k ->
                   keymatch toLowerCase isMac e s = Returns false).
Proof.
  intros Hp.
  pose proof (keymatch_true_iff toLowerCase isMac e s p Hp) as Iff.
  split; [exact Iff|].
  intros Extra.
  assert (No : keymatch toLowerCase isMac e s <> Returns true).
  { intros Hm. apply Iff in Hm as (_ & Hc & Ha & Hs & Ht).
    destruct Extra as [[A B]|[[A B]|[[A B]|[A B]]]]; congruence. }
  split; [exact No|].
  intros k Hk. unfold keymatch in *. rewrite Hp in *; simpl in *.
  destruct (normalizedEventKey_returns e k Hk) as [v Hv].
  rewrite Hv in *; simpl in *.
  match goal with
  | |- Returns ?b = _ => destruct b; [contradiction No|]; reflexivity
  end.
Qed.

Lemma nonblank_sep (s : jsstring) :
  In 43 s -> negb (truthy_string (trim s)) = false.
Proof.
  intros H. destruct (negb (truthy_string (trim s))) eqn:E; auto.
  apply blank_iff in E. rewrite (sep_not_blank s H) in E. discriminate.
Qed.

(** An accelerator of one modifier token and a base key. *)
Lemma parse_one_modifier (isMac : bool) (tok k : jsstring) :
  ~ In 43 tok -> ~ In 43 k -> k <> [] ->
  parseMatchString toLowerCase isMac (tok ++ 43 :: k) =
    Returns (applyModifier isMac (plain (toLowerCase k)) (toLowerCase tok)).
Proof.
  intros Ht Hk Hne.
  rewrite (parse_split toLowerCase isMac _ [tok] k)
    by (rewrite split_app_sep, split_no_sep by assumption; reflexivity).
  rewrite nonblank_sep by (apply in_elt).
  rewrite toLowerCase_truthy. destruct k; [congruence|]. reflexivity.
Qed.

(** C2: the token [cmdorctrl] or [commandorcontrol], in any letter case,
    requires meta when the platform is macOS-like and control otherwise,
    never both; on macOS [CmdOrCtrl+K] matches [k] with meta and not with
    control, elsewhere the other way round. *)
Theorem cmdorctrl_by_platform :
  (forall isMac st m,
      m = js "cmdorctrl" \/ m = js "commandorcontrol" ->
      applyModifier isMac st m =
        {| Parsed.ctrl := Parsed.ctrl st || negb isMac;
           Parsed.alt := Parsed.alt st; Parsed.shift := Parsed.shift st;
           Parsed.meta := Parsed.meta st || isMac;
           Parsed.key := Parsed.key st |})
  /\ (forall isMac tok k,
         toLowerCase tok = js "cmdorctrl"
         \/ toLowerCase tok = js "commandorcontrol" ->
         ~ In 43 tok -> ~ In 43 k -> k <> [] ->
         parseMatchString toLowerCase isMac (tok ++ 43 :: k) =
           Returns {| Parsed.ctrl := negb isMac; Parsed.alt := false;
                      Parsed.shift := false; Parsed.meta := isMac;
                      Parsed.key := toLowerCase k |})
  /\ keymatch toLowerCase true
       (createKeyboardEvent "k" None false false false true)
       (js "CmdOrCtrl+K") = Returns true
  /\ keymatch toLowerCase true
       (createKeyboardEvent "k" None true false false false)
       (js "CmdOrCtrl+K") = Returns false
  /\ keymatch toLowerCase false
       (createKeyboardEvent "k" None false false false true)
       (js "CmdOrCtrl+K") = Returns false
  /\ keymatch toLowerCase false
       (createKeyboardEvent "k" None true false false false)
       (js "CmdOrCtrl+K") = Returns true.
Proof.
  assert (Step : forall isMac st m,
      m = js "cmdorctrl" \/ m = js "commandorcontrol" ->
      applyModifier isMac st m =
        {| Parsed.ctrl := Parsed.ctrl st || negb isMac;
           Parsed.alt := Parsed.alt st; Parsed.shift := Parsed.shift st;
           Parsed.meta := Parsed.meta st || isMac;
           Parsed.key := Parsed.key st |}).
  { intros isMac st m [-> | ->]; rewrite applyModifier_flags;
      destruct isMac; simpl; rewrite ?orb_false_r; reflexivity. }
  split; [exact Step|].
  split.
  { intros isMac tok k Htok Ht Hk Hne.
    rewrite parse_one_modifier, Step by assumption.
    destruct isMac; reflexivity. }
  repeat split; run.
Qed.

(** C3: off macOS the token [option] adds no requirement, so [Option+K]
    parses as [K] does, alt must be up, and no event with alt pressed
    matches it; on macOS the token requires alt. *)
Theorem option_gated_by_platform :
  (forall st, applyModifier false st (js "option") = st)
  /\ (forall tok k,
         toLowerCase tok = js "option" ->
         ~ In 43 tok -> ~ In 43 k -> k <> [] ->
         parseMatchString toLowerCase false (tok ++ 43 :: k)
         = Returns (plain (toLowerCase k)))
  /\ parseMatchString toLowerCase false (js "Option+K")
     = Returns (plain (js "k"))
  /\ parseMatchString toLowerCase false (js "Option+K")
     = parseMatchString toLowerCase false (js "K")
  /\ (forall e, altKey e = true ->
         keymatch toLowerCase false e (js "Option+K") <> Returns true)
  /\ (forall e k, key e = Some k -> altKey e = true ->
         keymatch toLowerCase false e (js "Option+K") = Returns false)
  /\ (forall st, applyModifier true st (js "option") =
         {| Parsed.ctrl := Parsed.ctrl st; Parsed.alt := true;
            Parsed.shift := Parsed.shift st; Parsed.meta := Parsed.meta st;
            Parsed.key := Parsed.key st |})
  /\ parseMatchString toLowerCase true (js "Option+K") =
       Returns {| Parsed.ctrl := false; Parsed.alt := true;
                  Parsed.shift := false; Parsed.meta := false;
                  Parsed.key := js "k" |}.
Proof.
  assert (P : parseMatchString toLowerCase false (js "Option+K")
              = Returns (plain (js "k")))
    by run.
  split; [reflexivity|].
  split.
  { intros tok k Htok Ht Hk Hne.
    rewrite parse_one_modifier, Htok by assumption. reflexivity. }
  split; [exact P|].
  split; [rewrite P; symmetry; run|].
  split.
  { intros e Ha Hm.
    apply (keymatch_true_iff toLowerCase false e _ _ P) in Hm.
    simpl in Hm. destruct Hm as (_ & _ & Hm & _). congruence. }
  split.
  { intros e k Hk Ha. unfold keymatch. rewrite P; simpl.
    destruct (normalizedEventKey_returns e k Hk) as [v ->]; simpl.
    rewrite Ha; simpl. rewrite !andb_false_r. reflexivity. }
  split; [reflexivity | run].
Qed.

Lemma parse_blank (isMac : bool) (s : jsstring) :
  forallb isWhiteSpace s = true ->
  parseMatchString toLowerCase isMac s = Returns (plain []).
Proof.
  intros H. apply blank_iff in H. unfold parseMatchString. rewrite H.
  reflexivity.
Qed.

(** A blank accelerator matches no event whose normalized key is anything
    but the empty string. *)
Lemma blank_accelerator_no_match
  (isMac : bool) (e : KeyboardEvent) (s : jsstring) (v : value) :
  forallb isWhiteSpace s = true ->
  normalizedEventKey toLowerCase e = Returns v -> v <> Str [] ->
  keymatch toLowerCase isMac e s = Returns false.
Proof.
  intros Hs Hv Hne. unfold keymatch.
  rewrite (parse_blank isMac s Hs), Hv; simpl.
  destruct (strictEq v []) eqn:E; [|reflexivity].
  apply strictEq_true_iff in E. contradiction.
Qed.

(** C4: a blank accelerator parses to no requirement and the empty base
    key; yet [keymatch] returns [true] on the empty accelerator for the
    event that reports the empty string as its key with no modifier pressed
    (as [new KeyboardEvent('keydown')] does), where [false] is specified
    for every event. *)
Theorem blank_accelerator_matches_empty_key :
  (forall isMac s, forallb isWhiteSpace s = true ->
     parseMatchString toLowerCase isMac s = Returns (plain []))
  /\ (forall isMac, keymatch toLowerCase isMac (keyEvent "") (js "")
                    = Returns true).
Proof.
  split; [intros; apply parse_blank; assumption|].
  intros isMac. run.
Qed.

Lemma parse_throws_iff (isMac : bool) (s : jsstring) :
  parseMatchString toLowerCase isMac s = Throws (InvalidAccelerator s) <->
  trim s <> [] /\ last (split 43 s) [] = [].
Proof.
  destruct (split_snoc 43 s) as (mods & k & Hs).
  rewrite (parse_split toLowerCase isMac s mods k Hs), Hs, last_last.
  rewrite toLowerCase_truthy.
  destruct (trim s) as [|c r]; simpl.
  - split; [discriminate | intros [H _]; congruence].
  - destruct k; simpl; split; try discriminate; auto.
    + intros _; split; [discriminate | reflexivity].
    + intros [_ H]; discriminate.
Qed.

Lemma parse_total (isMac : bool) (s : jsstring) :
  (exists p, parseMatchString toLowerCase isMac s = Returns p)
  \/ parseMatchString toLowerCase isMac s = Throws (InvalidAccelerator s).
Proof.
  destruct (split_snoc 43 s) as (mods & k & Hs).
  rewrite (parse_split toLowerCase isMac s mods k Hs).
  destruct (negb (truthy_string (trim s))); [eauto|].
  destruct (negb (truthy_string (toLowerCase k))); eauto.
Qed.

Lemma normalizedEventKey_throws (e : KeyboardEvent) (err : error) :
  normalizedEventKey toLowerCase e = Throws err ->
  err = TypeError /\ key e = None.
Proof.
  unfold normalizedEventKey.
  assert (K : match key e with
              | Some k => Returns (normalizeKey toLowerCase k)
              | None => Throws TypeError
              end = Throws err -> err = TypeError /\ key e = None).
  { destruct (key e); [discriminate|]. intros H; injection H as <-; auto. }
  destruct (code e) as [c|]; auto.
  destruct (truthy_string c); auto.
  destruct (test_Key c); [discriminate|].
  destruct (test_Digit c); [discriminate | auto].
Qed.

(** C5: [keymatch] throws the invalid-accelerator error exactly when the
    accelerator is not blank and its last segment between ['+'] is empty;
    on every other accelerator, whatever its modifier tokens and base key,
    it returns a boolean for an event that carries a logical key. *)
Theorem invalid_accelerator_iff
  (isMac : bool) (e : KeyboardEvent) (s : jsstring) :
  ((exists m, keymatch toLowerCase isMac e s = Throws (InvalidAccelerator m))
   <-> trim s <> [] /\ last (split 43 s) [] = [])
  /\ (forall k, key e = Some k ->
        ~ (trim s <> [] /\ last (split 43 s) [] = []) ->
        exists b, keymatch toLowerCase isMac e s = Returns b).
Proof.
  split; [split|].
  - intros [m H]. apply parse_throws_iff with (isMac := isMac).
    unfold keymatch in H.
    destruct (parse_total isMac s) as [[p Hp]|Hp]; [|exact Hp].
    rewrite Hp in H; simpl in H.
    destruct (normalizedEventKey toLowerCase e) as [v|err] eqn:Ev;
      simpl in H; [discriminate|].
    apply normalizedEventKey_throws in Ev as [-> _]. discriminate.
  - intros H. apply (parse_throws_iff isMac) in H.
    exists s. unfold keymatch. rewrite H. reflexivity.
  - intros k Hk Hn. unfold keymatch.
    destruct (parse_total isMac s) as [[p Hp]|Hp].
    + rewrite Hp; simpl.
      destruct (normalizedEventKey_returns e k Hk) as [v ->]; simpl. eauto.
    + apply parse_throws_iff in Hp. contradiction.
Qed.

(** C6: a code made of [Digit] and one decimal digit normalizes to that
    digit, whatever the logical key; [Shift+1] matches the event with key
    [!], code [Digit1] and shift pressed. *)
Theorem digit_code_overrides_key :
  (forall e d, 48 <= d <= 57 -> code e = Some (js "Digit" ++ [d]) ->
     normalizedEventKey toLowerCase e = Returns (Str [d]))
  /\ (forall isMac,
        keymatch toLowerCase isMac
          (createKeyboardEvent "!" (Some (js "Digit1")) false false true false)
          (js "Shift+1") = Returns true).
Proof.
  split.
  - intros e d [H1 H2] Hc. unfold normalizedEventKey. rewrite Hc; simpl.
    apply N.leb_le in H1, H2. rewrite H1, H2. reflexivity.
  - intros isMac. run.
Qed.

(** C7, as the code has it: a code made of the three characters [Key] and
    one upper-case letter normalizes to that letter in lower case, whatever
    the logical key; on macOS [Alt+O] and [Option+O] match the event with
    key U+00F8 (o with stroke), code [KeyO] and alt pressed. *)
Theorem letter_code_overrides_key :
  (forall e c, 65 <= c <= 90 -> code e = Some (js "Key" ++ [c]) ->
     normalizedEventKey toLowerCase e = Returns (Str [c + 32]))
  /\ keymatch toLowerCase true composed_o (js "Alt+O") = Returns true
  /\ keymatch toLowerCase true composed_o (js "Option+O") = Returns true.
Proof.
  split.
  - intros e c Hc Hcode. unfold normalizedEventKey. rewrite Hcode; simpl.
    destruct Hc as [H1 H2]. pose proof (conj H1 H2) as Hc.
    apply N.leb_le in H1, H2. rewrite H1, H2; simpl.
    rewrite toLowerCase_Latin
      by (simpl; rewrite (upper_isAscii c Hc); reflexivity).
    simpl. rewrite (lowerUnit_upper c Hc). reflexivity.
  - split; run.
Qed.

Lemma own_keyMap_truthy (name v : jsstring) :
  own keyMap name = Some v -> truthy_string v = true.
Proof.
  unfold keyMap; cbn [own].
  repeat match goal with
         | |- (if streq ?a name then _ else _) = _ -> _ =>
             destruct (streq a name);
             [intros H; injection H as <-; reflexivity|]
         end.
  discriminate.
Qed.

(** The alias table: a lower-cased key that is an own property of [keyMap]
    is replaced by its value. *)
Lemma normalizeKey_alias (k v : jsstring) :
  own keyMap (toLowerCase k) = Some v ->
  normalizeKey toLowerCase k = Str v.
Proof.
  intros H. unfold normalizeKey, keyMap_get. rewrite H; simpl.
  rewrite (own_keyMap_truthy _ _ H). reflexivity.
Qed.

(** A key outside the alias table passes through lower-cased, unless its
    lower-cased form names a member of [Object.prototype]. *)
Lemma normalizeKey_passthrough (k : jsstring) :
  own keyMap (toLowerCase k) = None ->
  existsb (fun p => streq p (toLowerCase k)) ObjectPrototype = false ->
  normalizeKey toLowerCase k = Str (toLowerCase k).
Proof.
  intros H1 H2. unfold normalizeKey, keyMap_get. rewrite H1, H2. reflexivity.
Qed.

Lemma normalizeKey_inherited (k : jsstring) :
  own keyMap (toLowerCase k) = None ->
  existsb (fun p => streq p (toLowerCase k)) ObjectPrototype = true ->
  normalizeKey toLowerCase k = Inherited (toLowerCase k).
Proof.
  intros H1 H2. unfold normalizeKey, keyMap_get. rewrite H1, H2. reflexivity.
Qed.

(** The aliases of the test suite. *)
Lemma alias_examples (isMac : bool) :
  keymatch toLowerCase isMac (keyEvent "ArrowUp") (js "Up") = Returns true
  /\ keymatch toLowerCase isMac (keyEvent " ") (js "Space") = Returns true
  /\ keymatch toLowerCase isMac (keyEvent "F5") (js "F5") = Returns true.
Proof. repeat split; run. Qed.

(** C8: the key [constructor] is not in the alias table, yet [normalizeKey]
    does not pass it through: the lookup [keyMap[normalized]] finds
    [Object.prototype.constructor], a function, and returns it; so
    [keymatch] returns [false] for the event with this key and the
    accelerator [constructor]. *)
Theorem normalizeKey_inherited_constructor :
  own keyMap (js "constructor") = None
  /\ normalizeKey toLowerCase (js "constructor")
     = Inherited (js "constructor")
  /\ normalizedEventKey toLowerCase (keyEvent "constructor")
     = Returns (Inherited (js "constructor"))
  /\ (forall isMac,
        parseMatchString toLowerCase isMac (js "constructor")
        = Returns (plain (js "constructor"))
        /\ keymatch toLowerCase isMac (keyEvent "constructor")
             (js "constructor") = Returns false).
Proof.
  split; [reflexivity|]. split; [run|]. split; [run|].
  intros isMac; split; run.
Qed.

(** C9, as the code has it: the normalizer is a function, and it returns
    on every event that carries a logical key, a string when the
    lower-cased key names no member of [Object.prototype]; it returns the
    empty string when the key is the empty string and the code is absent or
    empty; with the key absent and a code that names no letter or digit
    position it throws a [TypeError]. *)
Theorem normalizedEventKey_total_with_key :
  (forall e k, key e = Some k ->
     exists v, normalizedEventKey toLowerCase e = Returns v)
  /\ (forall e k, key e = Some k ->
        existsb (fun p => streq p (toLowerCase k)) ObjectPrototype = false ->
        exists s, normalizedEventKey toLowerCase e = Returns (Str s))
  /\ (forall e, key e = Some [] -> code e = None \/ code e = Some [] ->
        normalizedEventKey toLowerCase e = Returns (Str []))
  /\ (forall e, key e = None ->
        (forall c, code e = Some c ->
           test_Key c = false /\ test_Digit c = false) ->
        normalizedEventKey toLowerCase e = Throws TypeError).
Proof.
  split; [exact normalizedEventKey_returns|].
  split; [|split].
  - intros e k Hk Hp. unfold normalizedEventKey. rewrite Hk.
    assert (K : exists s, Returns (A := value) (normalizeKey toLowerCase k)
                          = Returns (Str s)).
    { destruct (own keyMap (toLowerCase k)) as [v|] eqn:E.
      - rewrite (normalizeKey_alias k v E); eauto.
      - rewrite (normalizeKey_passthrough k E Hp); eauto. }
    destruct (code e) as [c|]; auto.
    destruct (truthy_string c); auto.
    destruct (test_Key c); [eauto|]. destruct (test_Digit c); eauto.
  - intros e Hk Hc. unfold normalizedEventKey, normalizeKey.
    rewrite Hk, toLowerCase_nil.
    destruct Hc as [-> | ->]; reflexivity.
  - intros e Hk Hc. unfold normalizedEventKey. rewrite Hk.
    destruct (code e) as [c|]; auto.
    destruct (Hc c eq_refl) as [-> ->].
    destruct (truthy_string c); reflexivity.
Qed.

(** C10: two accelerators with the same base key whose modifier tokens are
    the same up to order and repetition parse to the same object when one
    of them parses, and then match the same events. *)
Theorem parse_order_multiplicity_insensitive
  (isMac : bool) (s1 s2 : jsstring) (mods1 mods2 : list jsstring)
  (k : jsstring) (p : Parsed.t) :
  split 43 s1 = mods1 ++ [k] -> split 43 s2 = mods2 ++ [k] ->
  sameTokens mods1 mods2 ->
  parseMatchString toLowerCase isMac s1 = Returns p ->
  parseMatchString toLowerCase isMac s2 = Returns p
  /\ forall e,
       keymatch toLowerCase isMac e s2 = keymatch toLowerCase isMac e s1.
Proof.
  intros H1 H2 Same Hp.
  assert (P2 : parseMatchString toLowerCase isMac s2 = Returns p).
  { destruct mods1 as [|m1 ms1].
    - apply sameTokens_nil in Same; subst mods2.
      rewrite <- (join_split 43 s2), H2, <- H1, join_split. exact Hp.
    - destruct mods2 as [|m2 ms2].
      { destruct Same as [I _]. specialize (I m1 (or_introl eq_refl)).
        destruct I. }
      rewrite (parse_split toLowerCase isMac s2 _ k H2).
      rewrite (parse_split toLowerCase isMac s1 _ k H1) in Hp.
      rewrite nonblank_sep in * by (eapply split_two_sep; eauto).
      destruct (negb (truthy_string (toLowerCase k))); [discriminate|].
      rewrite <- Hp. f_equal.
      apply fold_sameTokens, sameTokens_map.
      destruct Same; split; assumption. }
  split; [exact P2|].
  intros e. unfold keymatch. rewrite P2, Hp. reflexivity.
Qed.

End Properties.

(** ** The properties at work

    [toLowerCaseLatin] has the two properties assumed of
    [String.prototype.toLowerCase]; with it the program runs. *)

Lemma toLowerCaseLatin_Latin (s : jsstring) :
  forallb isAscii s = true -> toLowerCaseLatin s = toLowerCaseLatin s.
Proof. reflexivity. Qed.

Lemma toLowerCaseLatin_nonempty (s : jsstring) :
  toLowerCaseLatin s = [] -> s = [].
Proof. apply map_eq_nil. Qed.

Lemma not_In_codeunit (c : codeunit) (s : jsstring) :
  existsb (N.eqb c) s = false -> ~ In c s.
Proof.
  intros H I. assert (E : existsb (N.eqb c) s = true).
  { apply existsb_exists. exists c; split; [assumption | apply N.eqb_refl]. }
  congruence.
Qed.

Lemma keymatch_exact_modifiers_witness :
  keymatch toLowerCaseLatin true
    (createKeyboardEvent "k" None false true false true) (js "CmdOrCtrl+K")
  = Returns false.
Proof.
  refine (proj2 (proj2 (keymatch_exact_modifiers toLowerCaseLatin true
                          (createKeyboardEvent "k" None false true false true)
                          (js "CmdOrCtrl+K")
                          {| Parsed.ctrl := false; Parsed.alt := false;
                             Parsed.shift := false; Parsed.meta := true;
                             Parsed.key := js "k" |} eq_refl) _)
            (js "k") eq_refl).
  right; left; split; reflexivity.
Defined.

Lemma cmdorctrl_by_platform_witness :
  parseMatchString toLowerCaseLatin true (js "CommandOrControl+Delete")
  = Returns {| Parsed.ctrl := false; Parsed.alt := false;
               Parsed.shift := false; Parsed.meta := true;
               Parsed.key := js "delete" |}
  /\ parseMatchString toLowerCaseLatin false (js "CommandOrControl+Delete")
     = Returns {| Parsed.ctrl := true; Parsed.alt := false;
                  Parsed.shift := false; Parsed.meta := false;
                  Parsed.key := js "delete" |}.
Proof.
  destruct (cmdorctrl_by_platform toLowerCaseLatin toLowerCaseLatin_Latin
              toLowerCaseLatin_nonempty) as (_ & H & _).
  split;
    [ apply (H true (js "CommandOrControl") (js "Delete"))
    | apply (H false (js "CommandOrControl") (js "Delete")) ];
    solve [ right; reflexivity
          | apply not_In_codeunit; reflexivity
          | discriminate ].
Defined.

Lemma option_gated_by_platform_witness :
  keymatch toLowerCaseLatin false
    (createKeyboardEvent "k" None false true false false) (js "Option+K")
  = Returns false.
Proof.
  destruct (option_gated_by_platform toLowerCaseLatin toLowerCaseLatin_Latin
              toLowerCaseLatin_nonempty) as (_ & _ & _ & _ & _ & H & _).
  apply (H (createKeyboardEvent "k" None false true false false) (js "k"));
    reflexivity.
Defined.

Lemma blank_accelerator_matches_empty_key_witness :
  parseMatchString toLowerCaseLatin false (js "   ")
  = Returns {| Parsed.ctrl := false; Parsed.alt := false;
               Parsed.shift := false; Parsed.meta := false;
               Parsed.key := [] |}
  /\ keymatch toLowerCaseLatin false (keyEvent "") (js "") = Returns true.
Proof.
  destruct (blank_accelerator_matches_empty_key toLowerCaseLatin
              toLowerCaseLatin_Latin) as (P & M).
  split; [apply P; reflexivity | apply M].
Defined.

Lemma invalid_accelerator_iff_witness :
  (exists m, keymatch toLowerCaseLatin true (keyEvent "k") (js "Ctrl+")
             = Throws (InvalidAccelerator m))
  /\ (exists b, keymatch toLowerCaseLatin true (keyEvent "k") (js "Hyper+Foo")
                = Returns b).
Proof.
  split.
  - apply (invalid_accelerator_iff toLowerCaseLatin toLowerCaseLatin_Latin
             toLowerCaseLatin_nonempty true (keyEvent "k") (js "Ctrl+")).
    split; [discriminate | reflexivity].
  - apply (proj2 (invalid_accelerator_iff toLowerCaseLatin
                    toLowerCaseLatin_Latin toLowerCaseLatin_nonempty true
                    (keyEvent "k") (js "Hyper+Foo")) (js "k") eq_refl).
    intros [_ H]. discriminate H.
Defined.

Lemma digit_code_overrides_key_witness :
  normalizedEventKey toLowerCaseLatin
    (createKeyboardEvent "!" (Some (js "Digit1")) false false true false)
  = Returns (Str (js "1")).
Proof.
  apply (proj1 (digit_code_overrides_key toLowerCaseLatin
                  toLowerCaseLatin_Latin)
           (createKeyboardEvent "!" (Some (js "Digit1"))
              false false true false) 49);
    [split; discriminate | reflexivity].
Defined.

Lemma letter_code_overrides_key_witness :
  normalizedEventKey toLowerCaseLatin composed_o = Returns (Str (js "o")).
Proof.
  apply (proj1 (letter_code_overrides_key toLowerCaseLatin
                  toLowerCaseLatin_Latin) composed_o 79);
    [split; discriminate | reflexivity].
Defined.

(** C7 as stated fails: no prefix of four characters marks a letter
    position.  An event whose code is four characters and an upper-case
    letter is normalized from its logical key. *)
Lemma letter_prefix_not_four_characters :
  ~ exists (toLowerCase : jsstring -> jsstring) (prefix : jsstring),
      (forall s, forallb isAscii s = true ->
                 toLowerCase s = toLowerCaseLatin s)
      /\ length prefix = 4%nat
      /\ forall e c, 65 <= c <= 90 -> code e = Some (prefix ++ [c]) ->
           normalizedEventKey toLowerCase e = Returns (Str [c + 32]).
Proof.
  intros (lower & prefix & HL & Hlen & H).
  destruct prefix as [|a [|b [|c [|d [|? ?]]]]]; try discriminate.
  specialize (H (createKeyboardEvent "!" (Some ([a; b; c; d] ++ [79]))
                   false false false false) 79).
  rewrite (normalizedEventKey_Latin lower HL) in H by reflexivity.
  assert (R : Returns (Str (js "!")) = Returns (Str [79 + 32]))
    by (apply H; [split; discriminate | reflexivity]).
  discriminate R.
Qed.

Lemma normalizeKey_inherited_constructor_witness :
  normalizeKey toLowerCaseLatin (js "constructor")
  = Inherited (js "constructor")
  /\ keymatch toLowerCaseLatin true (keyEvent "constructor")
       (js "constructor") = Returns false.
Proof.
  destruct (normalizeKey_inherited_constructor toLowerCaseLatin
              toLowerCaseLatin_Latin) as (_ & N & _ & M).
  split; [exact N | apply (M true)].
Defined.

Lemma normalizedEventKey_total_with_key_witness :
  normalizedEventKey toLowerCaseLatin (keyEvent "") = Returns (Str [])
  /\ normalizedEventKey toLowerCaseLatin no_key_no_code = Throws TypeError.
Proof.
  destruct (normalizedEventKey_total_with_key toLowerCaseLatin
              toLowerCaseLatin_Latin) as (_ & _ & E & T).
  split.
  - apply (E (keyEvent "")); [reflexivity | left; reflexivity].
  - apply (T no_key_no_code); [reflexivity | discriminate].
Defined.

(** C9 as stated fails: with the code and the key both absent the
    normalizer throws, whatever the lower-casing, and returns no string. *)
Lemma normalizer_throws_without_key :
  normalizedEventKey toLowerCaseLatin no_key_no_code = Throws TypeError
  /\ ~ exists (toLowerCase : jsstring -> jsstring) (v : value),
        normalizedEventKey toLowerCase no_key_no_code = Returns v.
Proof.
  split; [reflexivity|]. intros (lower & v & H). discriminate H.
Qed.

Lemma parse_order_multiplicity_insensitive_witness :
  parseMatchString toLowerCaseLatin true (js "Shift+Ctrl+Shift+K")
  = Returns {| Parsed.ctrl := true; Parsed.alt := false;
               Parsed.shift := true; Parsed.meta := false;
               Parsed.key := js "k" |}
  /\ forall e,
       keymatch toLowerCaseLatin true e (js "Shift+Ctrl+Shift+K")
       = keymatch toLowerCaseLatin true e (js "Ctrl+Shift+K").
Proof.
  apply (parse_order_multiplicity_insensitive toLowerCaseLatin true
           (js "Ctrl+Shift+K") (js "Shift+Ctrl+Shift+K")
           [js "Ctrl"; js "Shift"] [js "Shift"; js "Ctrl"; js "Shift"]
           (js "K")).
  - reflexivity.
  - reflexivity.
  - apply (duplicate_sameTokens (js "Shift") [js "Ctrl"] []).
  - reflexivity.
Defined.

(** ** Further properties of the parser and the matcher *)

Section Usage.

Variable toLowerCase : jsstring -> jsstring.

Hypothesis toLowerCase_Latin :
  forall s, forallb isAscii s = true -> toLowerCase s = toLowerCaseLatin s.

Hypothesis toLowerCase_nonempty :
  forall s, toLowerCase s = [] -> s = [].

Local Abbreviation plain k :=
  {| Parsed.ctrl := false; Parsed.alt := false; Parsed.shift := false;
     Parsed.meta := false; Parsed.key := k |}.

Lemma case_true_iff (m : jsstring) (name : string) :
  case_ m name = true <-> m = js name.
Proof. apply streq_true_iff. Qed.

Lemma case_false (m : jsstring) (name : string) (names : list jsstring) :
  ~ In m names -> In (js name) names -> case_ m name = false.
Proof.
  intros N I. destruct (case_ m name) eqn:E; auto.
  apply case_true_iff in E; subst m. contradiction.
Qed.

Lemma bool_eq_iff (a b : bool) : (a = true <-> b = true) -> a = b.
Proof. destruct a, b; intuition congruence. Qed.

Lemma blank_bool (s : jsstring) :
  negb (truthy_string (trim s)) = forallb isWhiteSpace s.
Proof. apply bool_eq_iff, blank_iff. Qed.

Lemma nonblank_bool (s : jsstring) :
  trim s <> [] -> negb (truthy_string (trim s)) = false.
Proof. destruct (trim s); [congruence | reflexivity]. Qed.

Lemma existsb_map_iff (f : jsstring -> bool) (g : jsstring -> jsstring)
  (l : list jsstring) :
  existsb f (map g l) = true <-> exists t, In t l /\ f (g t) = true.
Proof.
  rewrite existsb_exists. split.
  - intros (x & Hx & Hf). apply in_map_iff in Hx as (t & <- & Ht). eauto.
  - intros (t & Ht & Hf). exists (g t); split; [apply in_map|]; assumption.
Qed.

Lemma sets_ctrl_true_iff (isMac : bool) (m : jsstring) :
  sets_ctrl isMac m = true <->
  In m ctrlNames \/ (isMac = false /\ In m cmdOrCtrlNames).
Proof.
  unfold sets_ctrl, ctrlNames, cmdOrCtrlNames.
  rewrite !orb_true_iff, andb_true_iff, orb_true_iff, negb_true_iff,
    !case_true_iff. simpl. intuition congruence.
Qed.

Lemma sets_alt_true_iff (isMac : bool) (m : jsstring) :
  sets_alt isMac m = true <->
  m = js "alt" \/ (isMac = true /\ m = js "option").
Proof.
  unfold sets_alt. rewrite orb_true_iff, andb_true_iff, !case_true_iff.
  tauto.
Qed.

Lemma sets_shift_true_iff (m : jsstring) :
  sets_shift m = true <-> m = js "shift".
Proof. apply case_true_iff. Qed.

Lemma sets_meta_true_iff (isMac : bool) (m : jsstring) :
  sets_meta isMac m = true <->
  In m metaNames \/ (isMac = true /\ In m cmdOrCtrlNames).
Proof.
  unfold sets_meta, metaNames, cmdOrCtrlNames.
  rewrite !orb_true_iff, andb_true_iff, orb_true_iff, !case_true_iff.
  simpl. intuition congruence.
Qed.

(** The parse of an accelerator that is not blank and has a base key. *)
Lemma parse_flags (isMac : bool) (s : jsstring) (mods : list jsstring)
  (k : jsstring) :
  split 43 s = mods ++ [k] -> trim s <> [] -> k <> [] ->
  parseMatchString toLowerCase isMac s =
    Returns
      {| Parsed.ctrl := existsb (sets_ctrl isMac) (map toLowerCase mods);
         Parsed.alt := existsb (sets_alt isMac) (map toLowerCase mods);
         Parsed.shift := existsb sets_shift (map toLowerCase mods);
         Parsed.meta := existsb (sets_meta isMac) (map toLowerCase mods);
         Parsed.key := toLowerCase k |}.
Proof.
  intros Hs Hb Hk.
  rewrite (parse_split toLowerCase isMac s mods k Hs), nonblank_bool
    by assumption.
  rewrite (toLowerCase_truthy toLowerCase toLowerCase_Latin
             toLowerCase_nonempty).
  destruct k; [congruence|]. simpl.
  rewrite fold_applyModifier. reflexivity.
Qed.

(** X1: for an accelerator that is not blank and whose last segment is not
    empty, the parse returns; its base key is the last segment in lower
    case, and each flag is required exactly when a segment before the last
    one is, in lower case, a label of a branch that sets it: [ctrl],
    [control] (and the two CmdOrCtrl labels off macOS) for control; [alt]
    (and [option] on macOS) for alt; [shift] for shift; [cmd], [command],
    [meta], [super] (and the two CmdOrCtrl labels on macOS) for meta. *)
Theorem parse_requirements
  (isMac : bool) (s : jsstring) (mods : list jsstring) (k : jsstring) :
  split 43 s = mods ++ [k] -> trim s <> [] -> k <> [] ->
  exists p,
    parseMatchString toLowerCase isMac s = Returns p
    /\ Parsed.key p = toLowerCase k
    /\ (Parsed.ctrl p = true <->
        exists t, In t mods
          /\ (In (toLowerCase t) ctrlNames
              \/ (isMac = false /\ In (toLowerCase t) cmdOrCtrlNames)))
    /\ (Parsed.alt p = true <->
        exists t, In t mods
          /\ (toLowerCase t = js "alt"
              \/ (isMac = true /\ toLowerCase t = js "option")))
    /\ (Parsed.shift p = true <->
        exists t, In t mods /\ toLowerCase t = js "shift")
    /\ (Parsed.meta p = true <->
        exists t, In t mods
          /\ (In (toLowerCase t) metaNames
              \/ (isMac = true /\ In (toLowerCase t) cmdOrCtrlNames))).
Proof.
  intros Hs Hb Hk. eexists. split; [apply parse_flags; eassumption|].
  simpl. split; [reflexivity|].
  rewrite !existsb_map_iff.
  repeat split; intros (t & Ht & H); exists t; (split; [exact Ht|]);
    first [ apply sets_ctrl_true_iff | apply sets_alt_true_iff
          | apply sets_shift_true_iff | apply sets_meta_true_iff ];
    exact H.
Qed.

Lemma applyModifier_unknown (isMac : bool) (st : Parsed.t) (m : jsstring) :
  ~ In m modifierNames -> applyModifier isMac st m = st.
Proof.
  intros N. rewrite applyModifier_flags.
  unfold sets_ctrl, sets_alt, sets_shift, sets_meta.
  rewrite !(fun name I => case_false m name modifierNames N I)
    by (simpl; tauto).
  destruct st; simpl.
  rewrite ?andb_false_r, ?orb_false_r. reflexivity.
Qed.

Lemma split_cons_token (tok rest : jsstring) :
  ~ In 43 tok -> split 43 (tok ++ 43 :: rest) = tok :: split 43 rest.
Proof. apply split_app_sep. Qed.

(** The parse of [tok+rest] when [rest] has a base key. *)
Lemma parse_cons_token (isMac : bool) (tok rest : jsstring)
  (mods : list jsstring) (k : jsstring) :
  ~ In 43 tok -> split 43 rest = mods ++ [k] -> k <> [] ->
  parseMatchString toLowerCase isMac (tok ++ 43 :: rest) =
    Returns (fold_left (applyModifier isMac) (map toLowerCase mods)
               (applyModifier isMac (plain (toLowerCase k))
                  (toLowerCase tok))).
Proof.
  intros Ht Hs Hk.
  rewrite (parse_split toLowerCase isMac _ (tok :: mods) k)
    by (rewrite split_cons_token, Hs by assumption; reflexivity).
  rewrite nonblank_sep by (apply in_elt).
  rewrite (toLowerCase_truthy toLowerCase toLowerCase_Latin
             toLowerCase_nonempty).
  destruct k; [congruence|]. reflexivity.
Qed.

Lemma parse_returns_key (isMac : bool) (rest : jsstring) (p : Parsed.t) :
  parseMatchString toLowerCase isMac rest = Returns p -> trim rest <> [] ->
  exists mods k,
    split 43 rest = mods ++ [k] /\ k <> []
    /\ p = fold_left (applyModifier isMac) (map toLowerCase mods)
             (plain (toLowerCase k)).
Proof.
  intros Hp Hb. destruct (split_snoc 43 rest) as (mods & k & Hs).
  exists mods, k. split; [exact Hs|].
  rewrite (parse_split toLowerCase isMac rest mods k Hs), nonblank_bool
    in Hp by assumption.
  rewrite (toLowerCase_truthy toLowerCase toLowerCase_Latin
             toLowerCase_nonempty) in Hp.
  destruct k; simpl in Hp; [discriminate|].
  split; [discriminate | congruence].
Qed.

(** A token the [switch] does not know, in front of an accelerator. *)
Lemma parse_unknown_token
  (isMac : bool) (tok rest : jsstring) (p : Parsed.t) :
  ~ In 43 tok -> ~ In (toLowerCase tok) modifierNames ->
  trim rest <> [] ->
  parseMatchString toLowerCase isMac rest = Returns p ->
  parseMatchString toLowerCase isMac (tok ++ 43 :: rest) = Returns p.
Proof.
  intros Ht Hu Hb Hp.
  destruct (parse_returns_key isMac rest p Hp Hb) as (mods & k & Hs & Hk & ->).
  rewrite (parse_cons_token isMac tok rest mods k Ht Hs Hk).
  rewrite applyModifier_unknown by assumption. reflexivity.
Qed.

(** X2: a modifier token that is, in lower case, none of the labels of the
    [switch] adds nothing: put in front of an accelerator that is not blank
    and parses, it leaves the parse and every match as they are. *)
Theorem unknown_modifier_ignored
  (isMac : bool) (tok rest : jsstring) (p : Parsed.t) :
  ~ In 43 tok -> ~ In (toLowerCase tok) modifierNames ->
  trim rest <> [] ->
  parseMatchString toLowerCase isMac rest = Returns p ->
  parseMatchString toLowerCase isMac (tok ++ 43 :: rest) = Returns p
  /\ forall e,
       keymatch toLowerCase isMac e (tok ++ 43 :: rest)
       = keymatch toLowerCase isMac e rest.
Proof.
  intros Ht Hu Hb Hp.
  pose proof (parse_unknown_token isMac tok rest p Ht Hu Hb Hp) as P.
  split; [exact P|].
  intros e. unfold keymatch. rewrite P, Hp. reflexivity.
Qed.

Lemma applyModifier_group (isMac : bool) (st : Parsed.t)
  (g : list jsstring) (a b : jsstring) :
  In g (modifierGroups isMac) -> In a g -> In b g ->
  applyModifier isMac st a = applyModifier isMac st b.
Proof.
  intros Hg Ha Hb. rewrite !applyModifier_flags.
  destruct isMac; simpl in Hg;
    repeat (destruct Hg as [<-|Hg]; [|]); try contradiction;
    simpl in Ha, Hb;
    repeat (destruct Ha as [<-|Ha]; [|]); try contradiction;
    repeat (destruct Hb as [<-|Hb]; [|]); try contradiction;
    reflexivity.
Qed.

(** X3: two modifier tokens that are, in lower case, labels of branches
    setting the same flag are interchangeable in front of an accelerator:
    [cmd], [command], [meta], [super] always, with the CmdOrCtrl labels on
    macOS; [ctrl], [control] always, with the CmdOrCtrl labels elsewhere;
    [alt] with [option] on macOS. *)
Theorem modifier_synonyms
  (isMac : bool) (g : list jsstring) (t1 t2 rest : jsstring)
  (p : Parsed.t) :
  In g (modifierGroups isMac) ->
  In (toLowerCase t1) g -> In (toLowerCase t2) g ->
  ~ In 43 t1 -> ~ In 43 t2 ->
  parseMatchString toLowerCase isMac (t1 ++ 43 :: rest) = Returns p ->
  parseMatchString toLowerCase isMac (t2 ++ 43 :: rest) = Returns p.
Proof.
  intros Hg H1 H2 N1 N2 Hp.
  destruct (split_snoc 43 rest) as (mods & k & Hs).
  rewrite (parse_split toLowerCase isMac _ (t2 :: mods) k)
    by (rewrite split_cons_token, Hs by assumption; reflexivity).
  rewrite (parse_split toLowerCase isMac _ (t1 :: mods) k) in Hp
    by (rewrite split_cons_token, Hs by assumption; reflexivity).
  rewrite nonblank_sep in * by (apply in_elt).
  destruct (negb (truthy_string (toLowerCase k))); [discriminate|].
  rewrite <- Hp. simpl.
  rewrite (applyModifier_group isMac _ g _ _ Hg H2 H1). reflexivity.
Qed.

Lemma sets_platform_free (m : jsstring) :
  ~ In m platformNames ->
  sets_ctrl true m = sets_ctrl false m
  /\ sets_alt true m = sets_alt false m
  /\ sets_meta true m = sets_meta false m.
Proof.
  intros N. unfold sets_ctrl, sets_alt, sets_meta.
  rewrite (case_false m "cmdorctrl" platformNames N) by (simpl; tauto).
  rewrite (case_false m "commandorcontrol" platformNames N)
    by (simpl; tauto).
  rewrite (case_false m "option" platformNames N) by (simpl; tauto).
  simpl. rewrite ?andb_false_r, ?orb_false_r. auto.
Qed.

(** X4: an accelerator none of whose modifier tokens is, in lower case,
    [cmdorctrl], [commandorcontrol] or [option] parses the same on every
    platform, and so matches the same events. *)
Theorem platform_independent
  (s : jsstring) (mods : list jsstring) (k : jsstring) :
  split 43 s = mods ++ [k] ->
  (forall t, In t mods -> ~ In (toLowerCase t) platformNames) ->
  parseMatchString toLowerCase true s = parseMatchString toLowerCase false s
  /\ forall e, keymatch toLowerCase true e s = keymatch toLowerCase false e s.
Proof.
  intros Hs Hfree.
  assert (P : parseMatchString toLowerCase true s
              = parseMatchString toLowerCase false s).
  { rewrite !(parse_split toLowerCase _ s mods k Hs), !fold_applyModifier.
    assert (E : forall f g : jsstring -> bool,
               (forall m, ~ In m platformNames -> f m = g m) ->
               existsb f (map toLowerCase mods)
               = existsb g (map toLowerCase mods)).
    { intros f g Hfg. clear Hs. induction mods as [|t ts IH]; simpl; auto.
      rewrite Hfg by (apply Hfree; left; reflexivity).
      rewrite IH by (intros; apply Hfree; right; assumption). reflexivity. }
    rewrite (E (sets_ctrl true) (sets_ctrl false))
      by (intros; apply sets_platform_free; assumption).
    rewrite (E (sets_alt true) (sets_alt false))
      by (intros; apply sets_platform_free; assumption).
    rewrite (E (sets_meta true) (sets_meta false))
      by (intros; apply sets_platform_free; assumption).
    reflexivity. }
  split; [exact P|]. intros e. unfold keymatch. rewrite P. reflexivity.
Qed.

Lemma lowerUnit_cases (c : codeunit) :
  (65 <= c <= 90 /\ lowerUnit c = c + 32)
  \/ (~ 65 <= c <= 90 /\ lowerUnit c = c).
Proof.
  unfold lowerUnit.
  destruct (N.leb_spec 65 c), (N.leb_spec c 90); simpl;
    [left | right | right | right]; split; auto; lia.
Qed.

Lemma lowerUnit_sep (c : codeunit) : (lowerUnit c =? 43) = (c =? 43).
Proof.
  destruct (lowerUnit_cases c) as [[H ->]|[_ ->]]; [|reflexivity].
  rewrite (proj2 (N.eqb_neq _ _)), (proj2 (N.eqb_neq _ _)) by lia.
  reflexivity.
Qed.

Lemma lowerUnit_idem (c : codeunit) : lowerUnit (lowerUnit c) = lowerUnit c.
Proof.
  destruct (lowerUnit_cases c) as [[H E]|[H E]]; rewrite E; [|exact E].
  destruct (lowerUnit_cases (c + 32)) as [[? _]|[_ E']]; [lia | exact E'].
Qed.

Lemma letter_not_white (c : codeunit) :
  65 <= c <= 122 -> isWhiteSpace c = false.
Proof.
  intros H. unfold isWhiteSpace. cbn [existsb].
  rewrite !(proj2 (N.eqb_neq c _)) by lia.
  rewrite (proj2 (N.leb_gt _ c)) by lia. reflexivity.
Qed.

Lemma isWhiteSpace_lowerUnit (c : codeunit) :
  isWhiteSpace (lowerUnit c) = isWhiteSpace c.
Proof.
  destruct (lowerUnit_cases c) as [[H ->]|[_ ->]]; [|reflexivity].
  rewrite !letter_not_white by lia. reflexivity.
Qed.

Lemma isAscii_lowerUnit (c : codeunit) :
  isAscii (lowerUnit c) = isAscii c.
Proof.
  destruct (lowerUnit_cases c) as [[H ->]|[_ ->]]; [|reflexivity].
  unfold isAscii. rewrite !(proj2 (N.ltb_lt _ _)) by lia. reflexivity.
Qed.

Lemma toLowerCaseLatin_idem (s : jsstring) :
  toLowerCaseLatin (toLowerCaseLatin s) = toLowerCaseLatin s.
Proof.
  unfold toLowerCaseLatin. rewrite map_map.
  apply map_ext. apply lowerUnit_idem.
Qed.

Lemma toLowerCaseLatin_ascii (s : jsstring) :
  forallb isAscii (toLowerCaseLatin s) = forallb isAscii s.
Proof.
  induction s as [|c r IH]; simpl; auto.
  rewrite isAscii_lowerUnit, IH. reflexivity.
Qed.

Lemma toLowerCaseLatin_white (s : jsstring) :
  forallb isWhiteSpace (toLowerCaseLatin s) = forallb isWhiteSpace s.
Proof.
  induction s as [|c r IH]; simpl; auto.
  rewrite isWhiteSpace_lowerUnit, IH. reflexivity.
Qed.

Lemma split_toLowerCaseLatin (s : jsstring) :
  split 43 (toLowerCaseLatin s) = map toLowerCaseLatin (split 43 s).
Proof.
  induction s as [|c r IH]; simpl; auto.
  rewrite lowerUnit_sep. fold (toLowerCaseLatin r). rewrite IH.
  destruct (c =? 43); [reflexivity|].
  destruct (split 43 r); reflexivity.
Qed.

(** With the Basic Latin lower-casing, lower-casing the accelerator first
    changes nothing but the text of the error. *)
Lemma parseLatin_lower (isMac : bool) (s : jsstring) (p : Parsed.t) :
  parseMatchString toLowerCaseLatin isMac (toLowerCaseLatin s) = Returns p
  <-> parseMatchString toLowerCaseLatin isMac s = Returns p.
Proof.
  destruct (split_snoc 43 s) as (mods & k & Hs).
  rewrite (parse_split toLowerCaseLatin isMac s mods k Hs).
  rewrite (parse_split toLowerCaseLatin isMac (toLowerCaseLatin s)
             (map toLowerCaseLatin mods) (toLowerCaseLatin k))
    by (rewrite split_toLowerCaseLatin, Hs, map_app; reflexivity).
  rewrite !blank_bool, toLowerCaseLatin_white, toLowerCaseLatin_idem.
  replace (map toLowerCaseLatin (map toLowerCaseLatin mods))
    with (map toLowerCaseLatin mods)
    by (rewrite map_map; apply map_ext; intros;
        symmetry; apply toLowerCaseLatin_idem).
  destruct (forallb isWhiteSpace s); [tauto|].
  destruct (negb (truthy_string (toLowerCaseLatin k))); [|tauto].
  split; discriminate.
Qed.

Lemma parse_same_letters (isMac : bool) (s1 s2 : jsstring) (p : Parsed.t) :
  forallb isAscii s1 = true -> forallb isAscii s2 = true ->
  toLowerCaseLatin s1 = toLowerCaseLatin s2 ->
  parseMatchString toLowerCase isMac s1 = Returns p ->
  parseMatchString toLowerCase isMac s2 = Returns p.
Proof.
  intros A1 A2 E.
  rewrite !(parse_Latin toLowerCase toLowerCase_Latin) by assumption.
  rewrite <- (parseLatin_lower isMac s1), <- (parseLatin_lower isMac s2), E.
  tauto.
Qed.

Lemma normalizeKey_same_letters (k1 k2 : jsstring) :
  forallb isAscii k1 = true -> forallb isAscii k2 = true ->
  toLowerCaseLatin k1 = toLowerCaseLatin k2 ->
  normalizeKey toLowerCase k1 = normalizeKey toLowerCase k2.
Proof.
  intros A1 A2 E. unfold normalizeKey.
  rewrite !toLowerCase_Latin, E by assumption. reflexivity.
Qed.

(** X5: on Basic Latin text the match ignores letter case on both sides:
    two accelerators that differ in the case of their letters only, and two
    events that differ in the case of the letters of their key only, give
    the same boolean when one pair gives one. *)
Theorem keymatch_case_insensitive
  (isMac : bool) (e : KeyboardEvent) (k1 k2 s1 s2 : jsstring) (b : bool) :
  forallb isAscii s1 = true -> forallb isAscii s2 = true ->
  toLowerCaseLatin s1 = toLowerCaseLatin s2 ->
  forallb isAscii k1 = true -> forallb isAscii k2 = true ->
  toLowerCaseLatin k1 = toLowerCaseLatin k2 ->
  keymatch toLowerCase isMac (withKey k1 e) s1 = Returns b ->
  keymatch toLowerCase isMac (withKey k2 e) s2 = Returns b.
Proof.
  intros A1 A2 Es B1 B2 Ek. unfold keymatch.
  destruct (parseMatchString toLowerCase isMac s1) as [p|err] eqn:P1;
    [|discriminate].
  rewrite (parse_same_letters isMac s1 s2 p A1 A2 Es P1). simpl.
  assert (N : normalizedEventKey toLowerCase (withKey k2 e)
              = normalizedEventKey toLowerCase (withKey k1 e)).
  { unfold normalizedEventKey, withKey; simpl.
    rewrite (normalizeKey_same_letters k2 k1) by auto. reflexivity. }
  rewrite N. auto.
Qed.

Lemma normalizedEventKey_fallback (e : KeyboardEvent) :
  positional e = false ->
  normalizedEventKey toLowerCase e =
    match key e with
    | Some k => Returns (normalizeKey toLowerCase k)
    | None => Throws TypeError
    end.
Proof.
  unfold positional, normalizedEventKey.
  destruct (code e) as [c|]; [|reflexivity].
  intros H. apply orb_false_iff in H as [-> ->].
  destruct (truthy_string c); reflexivity.
Qed.

Lemma normalizedEventKey_positional (e : KeyboardEvent) :
  positional e = true ->
  exists x, normalizedEventKey toLowerCase e = Returns (Str [x])
            /\ 48 <= x <= 122.
Proof.
  unfold positional, normalizedEventKey.
  destruct (code e) as [c|]; [|discriminate].
  intros H. destruct (test_Key c) eqn:Ek.
  - apply test_Key_inv in Ek as (x & -> & Hx). simpl.
    rewrite toLowerCase_Latin
      by (simpl; rewrite (upper_isAscii x Hx); reflexivity).
    simpl. rewrite (lowerUnit_upper x Hx).
    exists (x + 32). split; [reflexivity | lia].
  - simpl in H. rewrite H.
    apply test_Digit_inv in H as (x & -> & Hx). simpl.
    exists x. split; [reflexivity | lia].
Qed.

(** X6: an event with no logical key and no code naming a letter or digit
    position never gets an answer: [keymatch] throws the invalid-accelerator
    error when the accelerator is not blank and ends in an empty segment,
    and a [TypeError] on every other accelerator, the blank ones included,
    whatever the modifier flags. *)
Theorem keymatch_without_key
  (isMac : bool) (e : KeyboardEvent) (s : jsstring) :
  key e = None -> positional e = false ->
  keymatch toLowerCase isMac e s =
    match parseMatchString toLowerCase isMac s with
    | Returns _ => Throws TypeError
    | Throws err => Throws err
    end
  /\ (trim s <> [] /\ last (split 43 s) [] = [] ->
      keymatch toLowerCase isMac e s = Throws (InvalidAccelerator s))
  /\ (~ (trim s <> [] /\ last (split 43 s) [] = []) ->
      keymatch toLowerCase isMac e s = Throws TypeError).
Proof.
  intros Hk Hp.
  assert (K : keymatch toLowerCase isMac e s =
              match parseMatchString toLowerCase isMac s with
              | Returns _ => Throws TypeError
              | Throws err => Throws err
              end).
  { unfold keymatch. rewrite (normalizedEventKey_fallback e Hp), Hk.
    destruct (parseMatchString toLowerCase isMac s); reflexivity. }
  split; [exact K|]. rewrite K.
  pose proof (parse_throws_iff toLowerCase toLowerCase_Latin
                toLowerCase_nonempty isMac s) as T.
  split.
  - intros H. apply T in H. rewrite H. reflexivity.
  - intros H.
    destruct (parse_total toLowerCase isMac s) as [[p ->]|E];
      [reflexivity|].
    apply T in E. contradiction.
Qed.

Lemma own_none_not_key (table : list (jsstring * jsstring)) (n : jsstring) :
  own table n = None -> ~ In n (map fst table).
Proof.
  induction table as [|[k v] rest IH]; simpl; [tauto|].
  destruct (streq k n) eqn:E; [discriminate|].
  intros H [->|I]; [|exact (IH H I)].
  rewrite streq_refl in E. discriminate.
Qed.

Lemma own_keyMap_value (n v : jsstring) :
  own keyMap n = Some v -> ~ In v (map fst keyMap).
Proof.
  unfold keyMap; cbn [own].
  repeat match goal with
         | |- (if streq ?a n then _ else _) = _ -> _ =>
             destruct (streq a n);
             [intros H; injection H as <-; cbv; intuition discriminate|]
         end.
  discriminate.
Qed.

Lemma normalizeKey_not_alias_source (k x : jsstring) :
  normalizeKey toLowerCase k = Str x -> ~ In x (map fst keyMap).
Proof.
  unfold normalizeKey, keyMap_get.
  destruct (own keyMap (toLowerCase k)) as [v|] eqn:E.
  - simpl. rewrite (own_keyMap_truthy _ _ E).
    intros H; injection H as <-. exact (own_keyMap_value _ _ E).
  - destruct (existsb _ ObjectPrototype); simpl; [discriminate|].
    intros H; injection H as <-. exact (own_none_not_key _ _ E).
Qed.

(** The normalized key of an event is never a name the alias table
    replaces. *)
Lemma normalized_not_alias_source (e : KeyboardEvent) (x : jsstring) :
  normalizedEventKey toLowerCase e = Returns (Str x) ->
  ~ In x (map fst keyMap).
Proof.
  destruct (positional e) eqn:P.
  - destruct (normalizedEventKey_positional e P) as (y & -> & Hy).
    intros H; injection H as <-. cbv [keyMap map fst js].
    simpl. intros [E|[E|[E|[E|[E|[]]]]]]; try discriminate E.
    injection E as E. lia.
  - rewrite (normalizedEventKey_fallback e P).
    destruct (key e) as [k|]; [|discriminate].
    intros H; injection H as H.
    exact (normalizeKey_not_alias_source k x H).
Qed.

Lemma keymatch_false_of_not_true
  (isMac : bool) (e : KeyboardEvent) (s k : jsstring) (p : Parsed.t) :
  parseMatchString toLowerCase isMac s = Returns p -> key e = Some k ->
  keymatch toLowerCase isMac e s <> Returns true ->
  keymatch toLowerCase isMac e s = Returns false.
Proof.
  intros Hp Hk. unfold keymatch. rewrite Hp; simpl.
  destruct (normalizedEventKey_returns toLowerCase e k Hk) as [v ->]; simpl.
  match goal with |- Returns ?b <> _ -> _ => destruct b end;
    [intros H; contradiction H|]; reflexivity.
Qed.

(** X7: the base key of an accelerator is lower-cased but not translated
    by the alias table, while the key of an event is: an accelerator whose
    base key is, in lower case, the space character or one of [arrowup],
    [arrowdown], [arrowleft], [arrowright] matches no event at all. *)
Theorem alias_source_never_matches
  (isMac : bool) (e : KeyboardEvent) (s : jsstring) (p : Parsed.t) :
  parseMatchString toLowerCase isMac s = Returns p ->
  In (Parsed.key p) (map fst keyMap) ->
  keymatch toLowerCase isMac e s <> Returns true
  /\ forall k, key e = Some k ->
               keymatch toLowerCase isMac e s = Returns false.
Proof.
  intros Hp Hin.
  assert (No : keymatch toLowerCase isMac e s <> Returns true).
  { intros H. apply (keymatch_true_iff toLowerCase isMac e s p Hp) in H.
    destruct H as [H _].
    exact (normalized_not_alias_source e _ H Hin). }
  split; [exact No|].
  intros k Hk. eapply keymatch_false_of_not_true; eassumption.
Qed.

(** Upper-case Basic Latin letters. *)
Lemma toLowerCaseLatin_no_upper (s : jsstring) :
  existsb (fun c => (65 <=? c) && (c <=? 90)) (toLowerCaseLatin s) = false.
Proof.
  induction s as [|c r IH]; simpl; auto. rewrite IH, orb_false_r.
  destruct (lowerUnit_cases c) as [[H ->]|[H ->]].
  - apply andb_false_iff; right. apply N.leb_gt. lia.
  - destruct (N.leb_spec 65 c), (N.leb_spec c 90); simpl; auto. lia.
Qed.

(** X8: for a key of Basic Latin characters, [normalizeKey] returns
    something that is not a string exactly when the key is, in lower case,
    [constructor] or [__proto__]: the other members of [Object.prototype]
    have an upper-case letter in their name, which no lower-cased key
    has. *)
Theorem normalizeKey_inherited_iff (k : jsstring) :
  forallb isAscii k = true ->
  (exists n, normalizeKey toLowerCase k = Inherited n) <->
  In (toLowerCaseLatin k) [js "constructor"; js "__proto__"].
Proof.
  intros A. unfold normalizeKey, keyMap_get.
  rewrite (toLowerCase_Latin k A).
  pose proof (toLowerCaseLatin_no_upper k) as U.
  split.
  - intros [n H].
    destruct (own keyMap (toLowerCaseLatin k)) as [v|] eqn:E.
    { simpl in H. rewrite (own_keyMap_truthy _ _ E) in H. discriminate. }
    destruct (existsb (fun p => streq p (toLowerCaseLatin k))
                ObjectPrototype) eqn:X; [|discriminate].
    apply existsb_exists in X as (name & Hname & Heq).
    apply streq_true_iff in Heq. rewrite <- Heq in *.
    unfold ObjectPrototype in Hname. simpl in Hname.
    repeat (destruct Hname as [<-|Hname];
            [first [ left; reflexivity | right; left; reflexivity
                   | vm_compute in U; discriminate U ]|]).
    contradiction.
  - intros [E|[E|[]]]; rewrite <- E; eexists; reflexivity.
Qed.

Lemma normalizeKey_empty_iff (k : jsstring) :
  normalizeKey toLowerCase k = Str [] <-> k = [].
Proof.
  split.
  - unfold normalizeKey, keyMap_get.
    destruct (own keyMap (toLowerCase k)) as [v|] eqn:E.
    + simpl. pose proof (own_keyMap_truthy _ _ E) as T. rewrite T.
      intros H; injection H as ->. discriminate.
    + destruct (existsb _ ObjectPrototype); simpl; [discriminate|].
      intros H; injection H as H. apply toLowerCase_nonempty; assumption.
  - intros ->. unfold normalizeKey.
    rewrite (toLowerCase_nil toLowerCase toLowerCase_Latin). reflexivity.
Qed.

(** X9: a blank accelerator matches exactly the events that report the
    empty string as their key, carry no code naming a letter or digit
    position, and have no modifier pressed. *)
Theorem blank_accelerator_match_iff
  (isMac : bool) (e : KeyboardEvent) (s : jsstring) :
  forallb isWhiteSpace s = true ->
  keymatch toLowerCase isMac e s = Returns true <->
    key e = Some [] /\ positional e = false
    /\ ctrlKey e = false /\ altKey e = false
    /\ shiftKey e = false /\ metaKey e = false.
Proof.
  intros Hs.
  rewrite (keymatch_true_iff toLowerCase isMac e s (plain [])
             (parse_blank toLowerCase isMac s Hs)). simpl.
  assert (N : normalizedEventKey toLowerCase e = Returns (Str [])
              <-> key e = Some [] /\ positional e = false).
  { destruct (positional e) eqn:P.
    - destruct (normalizedEventKey_positional e P) as (y & -> & _).
      split; [discriminate | intros [_ H]; discriminate].
    - rewrite (normalizedEventKey_fallback e P).
      destruct (key e) as [k|].
      + split.
        * intros H; injection H as H.
          apply normalizeKey_empty_iff in H. subst; auto.
        * intros [H _]; injection H as ->.
          f_equal. apply normalizeKey_empty_iff. reflexivity.
      + split; [discriminate | intros [H _]; discriminate]. }
  rewrite N. tauto.
Qed.

Lemma split_snoc_sep (sep : codeunit) (s : jsstring) :
  split sep (s ++ [sep]) = split sep s ++ [[]].
Proof.
  induction s as [|c r IH]; simpl.
  - rewrite N.eqb_refl. reflexivity.
  - rewrite IH. destruct (c =? sep); [reflexivity|].
    destruct (split_snoc sep r) as (m & k & ->).
    destruct m; reflexivity.
Qed.

Lemma join_snoc (sep : codeunit) (parts : list jsstring) (x : jsstring) :
  parts <> [] -> join sep (parts ++ [x]) = join sep parts ++ sep :: x.
Proof.
  induction parts as [|p rest IH]; [congruence|]. intros _.
  destruct rest as [|q rest]; [reflexivity|].
  change (join sep ((p :: q :: rest) ++ [x]))
    with (p ++ sep :: join sep ((q :: rest) ++ [x])).
  rewrite IH by discriminate.
  change (join sep (p :: q :: rest)) with (p ++ sep :: join sep (q :: rest)).
  rewrite <- app_assoc. reflexivity.
Qed.

Lemma last_split_empty_iff (s : jsstring) :
  last (split 43 s) [] = [] <-> s = [] \/ exists s', s = s' ++ [43].
Proof.
  split.
  - intros H. destruct (split_snoc 43 s) as (mods & k & Hs).
    rewrite Hs, last_last in H. subst k.
    rewrite <- (join_split 43 s), Hs.
    destruct mods as [|m mods]; [left; reflexivity|].
    right. exists (join 43 (m :: mods)). apply join_snoc. discriminate.
  - intros [->|[s' ->]]; [reflexivity|].
    rewrite split_snoc_sep. apply last_last.
Qed.

(** X10: [keymatch] throws the invalid-accelerator error exactly on the
    accelerators that end in ['+'], for every event, whether or not it
    carries a key. *)
Theorem trailing_plus_throws
  (isMac : bool) (e : KeyboardEvent) (s : jsstring) :
  keymatch toLowerCase isMac e s = Throws (InvalidAccelerator s)
  <-> exists s', s = s' ++ [43].
Proof.
  pose proof (parse_throws_iff toLowerCase toLowerCase_Latin
                toLowerCase_nonempty isMac s) as T.
  assert (K : keymatch toLowerCase isMac e s = Throws (InvalidAccelerator s)
              <-> parseMatchString toLowerCase isMac s
                  = Throws (InvalidAccelerator s)).
  { unfold keymatch.
    destruct (parse_total toLowerCase isMac s) as [[p ->]| ->]; simpl;
      [|tauto].
    destruct (normalizedEventKey toLowerCase e) as [v|err] eqn:N; simpl.
    - split; discriminate.
    - apply normalizedEventKey_throws in N as [-> _].
      split; discriminate. }
  rewrite K, T, last_split_empty_iff.
  split.
  - intros [Hb [->|H]]; [|exact H]. contradiction Hb. reflexivity.
  - intros [s' ->]. split; [|right; eauto].
    pose proof (nonblank_sep (s' ++ [43]) (in_elt 43 s' [])) as B.
    destruct (trim (s' ++ [43])); [discriminate B | discriminate].
Qed.

Lemma normalizedEventKey_withKey (k : jsstring) (e : KeyboardEvent) :
  positional e = true ->
  normalizedEventKey toLowerCase (withKey k e)
  = normalizedEventKey toLowerCase e.
Proof.
  unfold positional, normalizedEventKey, withKey; simpl.
  destruct (code e) as [c|]; [|discriminate].
  destruct c as [|x c]; [discriminate|]. simpl truthy_string. cbv iota.
  destruct (test_Key (x :: c)); [reflexivity|].
  destruct (test_Digit (x :: c)); [reflexivity | discriminate].
Qed.

(** X11: when the code of an event names a letter or digit position, the
    logical key it reports plays no part: the match is the same whatever
    the key, for every accelerator. *)
Theorem positional_code_ignores_key
  (isMac : bool) (e : KeyboardEvent) (k s : jsstring) :
  positional e = true ->
  keymatch toLowerCase isMac (withKey k e) s = keymatch toLowerCase isMac e s.
Proof.
  intros P. unfold keymatch.
  rewrite (normalizedEventKey_withKey k e P). reflexivity.
Qed.

Lemma modifierNames_no_space (n : jsstring) :
  In n modifierNames -> existsb isWhiteSpace n = false.
Proof.
  unfold modifierNames, metaNames, ctrlNames, cmdOrCtrlNames. simpl.
  intros H. repeat (destruct H as [<-|H]; [reflexivity|]). contradiction.
Qed.

Lemma toLowerCaseLatin_has_space (s : jsstring) :
  existsb isWhiteSpace (toLowerCaseLatin s) = existsb isWhiteSpace s.
Proof.
  induction s as [|c r IH]; simpl; auto.
  rewrite isWhiteSpace_lowerUnit, IH. reflexivity.
Qed.

(** X12: the segments of an accelerator are not trimmed: a modifier token
    of Basic Latin characters that holds a white-space character is none of
    the labels, so in front of an accelerator that is not blank and parses
    it requires nothing, whatever else it spells. *)
Theorem spaced_modifier_ignored
  (isMac : bool) (tok rest : jsstring) (p : Parsed.t) :
  forallb isAscii tok = true -> existsb isWhiteSpace tok = true ->
  ~ In 43 tok -> trim rest <> [] ->
  parseMatchString toLowerCase isMac rest = Returns p ->
  parseMatchString toLowerCase isMac (tok ++ 43 :: rest) = Returns p.
Proof.
  intros A W Ht Hb Hp.
  apply parse_unknown_token; try assumption.
  rewrite (toLowerCase_Latin tok A). intros I.
  apply modifierNames_no_space in I.
  rewrite toLowerCaseLatin_has_space in I. congruence.
Qed.

(** X13: what the parser returns has the empty base key exactly for the
    blank accelerators, and then requires no modifier. *)
Theorem parsed_key_empty_iff
  (isMac : bool) (s : jsstring) (p : Parsed.t) :
  parseMatchString toLowerCase isMac s = Returns p ->
  (Parsed.key p = [] <-> forallb isWhiteSpace s = true)
  /\ (Parsed.key p = [] -> p = plain []).
Proof.
  intros Hp.
  assert (B : forallb isWhiteSpace s = true -> p = plain []).
  { intros H. rewrite (parse_blank toLowerCase isMac s H) in Hp. congruence. }
  assert (K : Parsed.key p = [] -> forallb isWhiteSpace s = true).
  { intros Hk. destruct (forallb isWhiteSpace s) eqn:E; [reflexivity|].
    assert (T : trim s <> []).
    { intros T. apply trim_nil_iff in T. congruence. }
    destruct (parse_returns_key isMac s p Hp T) as (mods & k & _ & Hne & ->).
    rewrite fold_applyModifier in Hk. simpl in Hk.
    apply toLowerCase_nonempty in Hk. contradiction. }
  split; [split|]; auto.
  intros H. rewrite (B H). reflexivity.
Qed.

End Usage.

(** ** The further properties at work *)

Lemma In_jsstring (m : jsstring) (names : list jsstring) :
  existsb (streq m) names = true -> In m names.
Proof.
  intros H. apply existsb_exists in H as (x & Hx & E).
  apply streq_true_iff in E. subst; assumption.
Qed.

Lemma not_In_jsstring (m : jsstring) (names : list jsstring) :
  existsb (streq m) names = false -> ~ In m names.
Proof.
  intros H I. assert (E : existsb (streq m) names = true).
  { apply existsb_exists. exists m; split; [assumption | apply streq_refl]. }
  congruence.
Qed.

Lemma parse_requirements_witness :
  exists p,
    parseMatchString toLowerCaseLatin true (js "CmdOrCtrl+Shift+J")
    = Returns p
    /\ Parsed.key p = js "j" /\ Parsed.shift p = true
    /\ Parsed.meta p = true.
Proof.
  assert (B : trim (js "CmdOrCtrl+Shift+J") <> [])
    by (vm_compute; discriminate).
  assert (K : js "J" <> []) by discriminate.
  destruct (parse_requirements toLowerCaseLatin toLowerCaseLatin_Latin
              toLowerCaseLatin_nonempty true (js "CmdOrCtrl+Shift+J")
              [js "CmdOrCtrl"; js "Shift"] (js "J") eq_refl B K)
    as (p & Hp & Hk & _ & _ & Hs & Hm).
  exists p. split; [exact Hp|]. split; [exact Hk|]. split.
  - apply Hs. exists (js "Shift"). split; [right; left|]; reflexivity.
  - apply Hm. exists (js "CmdOrCtrl").
    split; [left; reflexivity|]. right. split; [reflexivity|].
    left; reflexivity.
Defined.

Lemma unknown_modifier_ignored_witness :
  parseMatchString toLowerCaseLatin false (js "Hyper+Ctrl+K")
  = Returns {| Parsed.ctrl := true; Parsed.alt := false;
               Parsed.shift := false; Parsed.meta := false;
               Parsed.key := js "k" |}.
Proof.
  apply (unknown_modifier_ignored toLowerCaseLatin toLowerCaseLatin_Latin
           toLowerCaseLatin_nonempty false (js "Hyper") (js "Ctrl+K")).
  - apply not_In_codeunit; reflexivity.
  - apply not_In_jsstring; reflexivity.
  - vm_compute; discriminate.
  - reflexivity.
Defined.

Lemma modifier_synonyms_witness :
  parseMatchString toLowerCaseLatin true (js "Super+K")
  = Returns {| Parsed.ctrl := false; Parsed.alt := false;
               Parsed.shift := false; Parsed.meta := true;
               Parsed.key := js "k" |}.
Proof.
  apply (modifier_synonyms toLowerCaseLatin true
           (metaNames ++ cmdOrCtrlNames) (js "CmdOrCtrl") (js "Super")
           (js "K")).
  - left; reflexivity.
  - apply In_jsstring; reflexivity.
  - apply In_jsstring; reflexivity.
  - apply not_In_codeunit; reflexivity.
  - apply not_In_codeunit; reflexivity.
  - reflexivity.
Defined.

Lemma platform_independent_witness :
  parseMatchString toLowerCaseLatin true (js "Ctrl+Alt+Delete")
  = parseMatchString toLowerCaseLatin false (js "Ctrl+Alt+Delete").
Proof.
  apply (platform_independent toLowerCaseLatin (js "Ctrl+Alt+Delete")
           [js "Ctrl"; js "Alt"] (js "Delete") eq_refl).
  intros t [<-|[<-|[]]]; apply not_In_jsstring; reflexivity.
Defined.

Lemma keymatch_case_insensitive_witness :
  keymatch toLowerCaseLatin true (withKey (js "R") no_key_no_code) (js "r")
  = Returns true.
Proof.
  apply (keymatch_case_insensitive toLowerCaseLatin toLowerCaseLatin_Latin
           true no_key_no_code (js "r") (js "R") (js "R") (js "r") true);
    reflexivity.
Defined.

Lemma keymatch_without_key_witness :
  keymatch toLowerCaseLatin true no_key_no_code (js "Ctrl+K")
  = Throws TypeError
  /\ keymatch toLowerCaseLatin true no_key_no_code (js "")
     = Throws TypeError
  /\ keymatch toLowerCaseLatin true no_key_no_code (js "Ctrl+")
     = Throws (InvalidAccelerator (js "Ctrl+")).
Proof.
  split; [|split].
  - apply (keymatch_without_key toLowerCaseLatin toLowerCaseLatin_Latin
             toLowerCaseLatin_nonempty true no_key_no_code (js "Ctrl+K")
             eq_refl eq_refl).
    intros [_ H]. discriminate H.
  - apply (keymatch_without_key toLowerCaseLatin toLowerCaseLatin_Latin
             toLowerCaseLatin_nonempty true no_key_no_code (js "")
             eq_refl eq_refl).
    intros [H _]. apply H. reflexivity.
  - apply (keymatch_without_key toLowerCaseLatin toLowerCaseLatin_Latin
             toLowerCaseLatin_nonempty true no_key_no_code (js "Ctrl+")
             eq_refl eq_refl).
    split; [vm_compute; discriminate | reflexivity].
Defined.

Lemma alias_source_never_matches_witness :
  keymatch toLowerCaseLatin true (keyEvent "ArrowUp") (js "ArrowUp")
  = Returns false
  /\ keymatch toLowerCaseLatin true (keyEvent " ") (js "Ctrl+ ")
     <> Returns true.
Proof.
  split.
  - apply (proj2 (alias_source_never_matches toLowerCaseLatin
                    toLowerCaseLatin_Latin true (keyEvent "ArrowUp")
                    (js "ArrowUp")
                    {| Parsed.ctrl := false; Parsed.alt := false;
                       Parsed.shift := false; Parsed.meta := false;
                       Parsed.key := js "arrowup" |} eq_refl
                    (or_intror (or_introl eq_refl)))
             (js "ArrowUp") eq_refl).
  - apply (alias_source_never_matches toLowerCaseLatin
             toLowerCaseLatin_Latin true (keyEvent " ") (js "Ctrl+ ")
             {| Parsed.ctrl := true; Parsed.alt := false;
                Parsed.shift := false; Parsed.meta := false;
                Parsed.key := js " " |} eq_refl (or_introl eq_refl)).
Defined.

Lemma normalizeKey_inherited_iff_witness :
  (exists n, normalizeKey toLowerCaseLatin (js "__PROTO__") = Inherited n)
  /\ ~ (exists n, normalizeKey toLowerCaseLatin (js "toString")
                  = Inherited n).
Proof.
  split.
  - apply (normalizeKey_inherited_iff toLowerCaseLatin
             toLowerCaseLatin_Latin (js "__PROTO__") eq_refl).
    right; left; reflexivity.
  - intros H.
    apply (normalizeKey_inherited_iff toLowerCaseLatin
             toLowerCaseLatin_Latin (js "toString") eq_refl) in H.
    destruct H as [H|[H|[]]]; discriminate H.
Defined.

Lemma blank_accelerator_match_iff_witness :
  keymatch toLowerCaseLatin true (keyEvent "") (js "  ") = Returns true.
Proof.
  apply (blank_accelerator_match_iff toLowerCaseLatin toLowerCaseLatin_Latin
           toLowerCaseLatin_nonempty true (keyEvent "") (js "  ") eq_refl).
  repeat split; reflexivity.
Defined.

Lemma trailing_plus_throws_witness :
  keymatch toLowerCaseLatin false (keyEvent "+") (js "Ctrl++")
  = Throws (InvalidAccelerator (js "Ctrl++")).
Proof.
  apply (trailing_plus_throws toLowerCaseLatin toLowerCaseLatin_Latin
           toLowerCaseLatin_nonempty false (keyEvent "+") (js "Ctrl++")).
  exists (js "Ctrl+"). reflexivity.
Defined.

Lemma positional_code_ignores_key_witness :
  keymatch toLowerCaseLatin true (withKey (js "!") composed_o) (js "Alt+O")
  = keymatch toLowerCaseLatin true composed_o (js "Alt+O").
Proof.
  apply (positional_code_ignores_key toLowerCaseLatin true composed_o
           (js "!") (js "Alt+O")).
  reflexivity.
Defined.

Lemma spaced_modifier_ignored_witness :
  parseMatchString toLowerCaseLatin true (js "Ctrl +K")
  = Returns {| Parsed.ctrl := false; Parsed.alt := false;
               Parsed.shift := false; Parsed.meta := false;
               Parsed.key := js "k" |}.
Proof.
  apply (spaced_modifier_ignored toLowerCaseLatin toLowerCaseLatin_Latin
           toLowerCaseLatin_nonempty true (js "Ctrl ") (js "K")).
  - reflexivity.
  - reflexivity.
  - apply not_In_codeunit; reflexivity.
  - vm_compute; discriminate.
  - reflexivity.
Defined.

Lemma parsed_key_empty_iff_witness :
  Parsed.key {| Parsed.ctrl := false; Parsed.alt := false;
                Parsed.shift := false; Parsed.meta := false;
                Parsed.key := [] |} = []
  <-> forallb isWhiteSpace (js "  ") = true.
Proof.
  apply (parsed_key_empty_iff toLowerCaseLatin toLowerCaseLatin_Latin
           toLowerCaseLatin_nonempty true (js "  ")).
  reflexivity.
Defined.
